(** * Verification of the recipe parser's support types (conda-recipe-manager)

    Embedding of [conda_recipe_manager/parser/_types.py]: the regular
    expressions of the [Regex] namespace, the canonical key sort-order tables
    and the SPDX misspelling table, together with the parts of the parser and
    the V0-to-V1 converter that use them; and of the [ExitCode] enumeration of
    [conda_recipe_manager/commands/utils/types.py].  The converter and the document model
    live in [recipe_parser.py] and [recipe_parser_convert.py], which are not
    part of these sources; the definitions that stand for them say so in their
    doc comments ("Modelled from the spec: ...").

    Strings are modelled as lists of ASCII characters; Python's [re] module is
    modelled by a backtracking matcher with the same priority order (leftmost
    position first, then alternatives left to right, greedy repetition). *)

From Stdlib Require Import List Ascii String Bool Arith Lia ZArith Sorted Permutation.
Import ListNotations.

Open Scope list_scope.

(** ** Python regular expressions *)

Module Re.

(** Regular expression syntax as used by the [Regex] namespace.  Capturing
    groups do not change what is matched, so a group is written as its body. *)
Inductive regex : Type :=
| RSet (p : ascii -> bool)          (* one character satisfying [p] *)
| RCat (r1 r2 : regex)
| RAlt (r1 r2 : regex)              (* [r1|r2], [r1] tried first *)
| RStar (r : regex)                 (* greedy [r*] *)
| RBol                              (* [^] without re.MULTILINE *)
| RNotBehind (c : ascii)            (* negative lookbehind [(?<!c)] *)
| REps.

(** Continuation-passing backtracking matcher.  A position in the input is
    the pair of the characters before it (nearest first) and the characters
    after it.  [k] receives the position reached; the first success in priority order is returned.  A star
    iteration that consumes nothing is refused, as in [sre]. *)
Fixpoint m {X : Type} (r : regex) (b s : list ascii)
    (k : list ascii -> list ascii -> option X) {struct r} : option X :=
  match r with
  | RSet p =>
      match s with
      | c :: t => if p c then k (c :: b) t else None
      | [] => None
      end
  | RCat r1 r2 => m r1 b s (fun b1 s1 => m r2 b1 s1 k)
  | RAlt r1 r2 =>
      match m r1 b s k with
      | Some x => Some x
      | None => m r2 b s k
      end
  | RStar r1 =>
      (fix star (n : nat) (b0 s0 : list ascii) {struct n} : option X :=
         match n with
         | O => k b0 s0
         | S n' =>
             match m r1 b0 s0 (fun b1 s1 =>
                     if List.length s1 <? List.length s0 then star n' b1 s1 else None) with
             | Some x => Some x
             | None => k b0 s0
             end
         end) (List.length s) b s
  | RBol => match b with [] => k b s | _ :: _ => None end
  | RNotBehind c =>
      match b with
      | c' :: _ => if Ascii.eqb c c' then None else k b s
      | [] => k b s
      end
  | REps => k b s
  end.

(** [pattern.match] at a position: the position after the chosen match. *)
Definition match_at (r : regex) (b s : list ascii) : option (list ascii * list ascii) :=
  m r b s (fun b' s' => Some (b', s')).

(** [pattern.search]: the first position (counted from the start of [s]) where
    a match begins, with the text left after that match. *)
Fixpoint search_go (r : regex) (i : nat) (b s : list ascii) : option (nat * list ascii) :=
  match match_at r b s with
  | Some (_, s') => Some (i, s')
  | None =>
      match s with
      | [] => None
      | c :: t => search_go r (S i) (c :: b) t
      end
  end.

Definition search (r : regex) (s : list ascii) : option (nat * list ascii) :=
  search_go r 0 [] s.

(** [pattern.sub(repl, s)]: non-overlapping matches from left to right, each
    replaced by [repl]; after an empty match one character is copied (Python
    3.7 semantics).  [n] is fuel, [List.length s + 1] suffices. *)
Fixpoint sub_go (n : nat) (r : regex) (repl : list ascii) (b s : list ascii) : list ascii :=
  match n with
  | O => s
  | S n' =>
      match match_at r b s with
      | Some (b', s') =>
          if List.length s' <? List.length s then repl ++ sub_go n' r repl b' s'
          else repl ++ match s with
                       | [] => []
                       | c :: t => c :: sub_go n' r repl (c :: b) t
                       end
      | None =>
          match s with
          | [] => []
          | c :: t => c :: sub_go n' r repl (c :: b) t
          end
      end
  end.

Definition sub (r : regex) (repl s : list ascii) : list ascii :=
  sub_go (S (List.length s)) r repl [] s.

(** Derived forms. *)
Definition lit (c : ascii) : regex := RSet (fun d => Ascii.eqb c d).
Definition plus (r : regex) : regex := RCat r (RStar r).
Definition opt (r : regex) : regex := RAlt r REps.
Fixpoint seq (rs : list regex) : regex :=
  match rs with
  | [] => REps
  | [r] => r
  | r :: rs' => RCat r (seq rs')
  end.
Definition word (w : string) : regex := seq (map lit (list_ascii_of_string w)).

(** [.]: any character but a newline. *)
Definition dot : regex := RSet (fun c => negb (Ascii.eqb c "010"%char)).
(** [\s] on [str] patterns: the characters for which [str.isspace()] holds;
    on ASCII these are codes 9-13 and 28-32. *)
Definition is_space (c : ascii) : bool :=
  let n := nat_of_ascii c in ((9 <=? n) && (n <=? 13)) || ((28 <=? n) && (n <=? 32)).
Definition ws : regex := RSet is_space.
Definition any_of (w : string) : regex :=
  RSet (fun c => existsb (Ascii.eqb c) (list_ascii_of_string w)).

End Re.

(** ** The [Regex] namespace of [_types.py]

    In the comments below a double quote of the Python source is written [DQ],
    and a space separates a star from a closing parenthesis after it. *)

Module Regex.
Import Re.

Definition nl : ascii := "010"%char.
Definition dq : ascii := "034"%char.

(** [_JINJA_VAR_FUNCTION_PATTERN = r"[a-zA-Z_][a-zA-Z0-9_\|\'\DQ\(\)\, =\.\-]*"] *)
Definition is_alpha (c : ascii) : bool :=
  let n := nat_of_ascii c in ((65 <=? n) && (n <=? 90)) || ((97 <=? n) && (n <=? 122)).
Definition is_digit (c : ascii) : bool :=
  let n := nat_of_ascii c in (48 <=? n) && (n <=? 57).
Definition JINJA_VAR_FUNCTION_PATTERN : regex :=
  RCat (RSet (fun c => is_alpha c || Ascii.eqb c "_"))
       (RStar (RSet (fun c => is_alpha c || is_digit c || Ascii.eqb c dq ||
                              existsb (Ascii.eqb c) (list_ascii_of_string "_|'(), =.-")))).

(** [PRE_PROCESS_ENVIRON = re.compile(r DQ \s+environ\[(\DQ|')(.* )(\DQ|')\] DQ)] *)
Definition PRE_PROCESS_ENVIRON : regex :=
  seq [plus ws; word "environ["; RAlt (lit dq) (lit "'"); RStar dot;
       RAlt (lit dq) (lit "'"); lit "]"].

(** [JINJA_LINE = re.compile(r"({%.*%}|{#.*#})\n")] *)
Definition JINJA_LINE : regex :=
  RCat (RAlt (seq [word "{%"; RStar dot; word "%}"])
             (seq [word "{#"; RStar dot; word "#}"]))
       (lit nl).

(** [JINJA_SET_LINE = re.compile(r"{%\s*set\s*" + _JINJA_VAR_FUNCTION_PATTERN
    + r"\s*=.*%}\s*\n")] *)
Definition JINJA_SET_LINE : regex :=
  seq [word "{%"; RStar ws; word "set"; RStar ws; JINJA_VAR_FUNCTION_PATTERN;
       RStar ws; lit "="; RStar dot; word "%}"; RStar ws; lit nl].

(** [JINJA_REPLACE_V0_STARTING_MARKER = re.compile(r"(?<!\$)\{\{")] *)
Definition JINJA_REPLACE_V0_STARTING_MARKER : regex :=
  seq [RNotBehind "$"; lit "{"; lit "{"].

(** [MULTILINE = re.compile(r DQ ^\s*.*:\s+(\||>)(\+|\-)?(\s*|\s+#.* ) DQ)] *)
Definition MULTILINE : regex :=
  seq [RBol; RStar ws; RStar dot; lit ":"; plus ws; RAlt (lit "|") (lit ">");
       opt (RAlt (lit "+") (lit "-"));
       RAlt (RStar ws) (seq [plus ws; lit "#"; RStar dot])].

(** [JINJA_SUB = re.compile(r"{{\s*" + _JINJA_VAR_FUNCTION_PATTERN + r"\s*}}")] *)
Definition JINJA_SUB : regex :=
  seq [word "{{"; RStar ws; JINJA_VAR_FUNCTION_PATTERN; RStar ws; word "}}"].

(** [JINJA_FUNCTION_LOWER = re.compile(r"\|\s*lower")] *)
Definition JINJA_FUNCTION_LOWER : regex :=
  seq [lit "|"; RStar ws; word "lower"].

(** [SELECTOR = re.compile(r"\[.* \]")] *)
Definition SELECTOR : regex :=
  seq [lit "["; RStar dot; lit "]"].

(** [DETECT_TRAILING_COMMENT = re.compile(r"(\s)+(#)")] *)
Definition DETECT_TRAILING_COMMENT : regex :=
  RCat (plus ws) (lit "#").

End Regex.

(** ** General facts about the matcher *)

Module ReFacts.
Import Re.

(** A match only moves forward: the continuation is called on a suffix of the
    input, with the consumed characters pushed on the left context. *)
Lemma m_suffix {X : Type} (r : regex) :
  forall b s (k : list ascii -> list ascii -> option X) x,
  m r b s k = Some x ->
  exists u s', s = u ++ s' /\ k (rev u ++ b) s' = Some x.
Proof.
  induction r as [p | r1 IH1 r2 IH2 | r1 IH1 r2 IH2 | r1 IH1 | | c |];
    intros b s k x H; cbn [m] in H.
  - destruct s as [| c t]; [discriminate |].
    destruct (p c); [| discriminate].
    exists [c], t; split; [reflexivity | exact H].
  - apply IH1 in H as (u1 & s1 & -> & H1).
    apply IH2 in H1 as (u2 & s2 & -> & H2).
    exists (u1 ++ u2), s2; split; [now rewrite app_assoc |].
    now rewrite rev_app_distr, <- app_assoc.
  - destruct (m r1 b s k) eqn:E.
    + injection H as <-. now apply IH1 in E.
    + now apply IH2 in H.
  - revert H. generalize (List.length s) as n. intros n. revert b s.
    induction n as [| n IHn]; intros b s H.
    + exists [], s; split; [reflexivity | exact H].
    + destruct (m r1 b s _) eqn:E.
      * injection H as <-.
        apply IH1 in E as (u1 & s1 & -> & E).
        destruct (List.length s1 <? List.length (u1 ++ s1)); [| discriminate].
        apply IHn in E as (u2 & s2 & -> & E).
        exists (u1 ++ u2), s2; split; [now rewrite app_assoc |].
        now rewrite rev_app_distr, <- app_assoc.
      * exists [], s; split; [reflexivity | exact H].
  - destruct b; [| discriminate]. exists [], s; split; [reflexivity | exact H].
  - exists [], s; split; [reflexivity |].
    destruct b as [| c' b]; [exact H |].
    destruct (Ascii.eqb c c'); [discriminate | exact H].
  - exists [], s; split; [reflexivity | exact H].
Qed.

(** [ends_with c r]: every match of [r] ends with the character [c]. *)
Fixpoint ends_with (c : ascii) (r : regex) : Prop :=
  match r with
  | RSet p => forall d, p d = true -> d = c
  | RCat _ r2 => ends_with c r2
  | RAlt r1 r2 => ends_with c r1 /\ ends_with c r2
  | _ => False
  end.

Lemma m_ends_with {X : Type} (c : ascii) (r : regex) :
  ends_with c r ->
  forall b s (k : list ascii -> list ascii -> option X) x,
  m r b s k = Some x ->
  exists u b' s', s = u ++ c :: s' /\ k b' s' = Some x.
Proof.
  induction r as [p | r1 IH1 r2 IH2 | r1 IH1 r2 IH2 | r1 IH1 | | c' |];
    cbn [ends_with]; intros He b s k x H; cbn [m] in H; try contradiction.
  - destruct s as [| d t]; [discriminate |].
    destruct (p d) eqn:Ep; [| discriminate].
    pose proof (He d Ep); subst d.
    exists [], (c :: b), t; split; [reflexivity | exact H].
  - apply m_suffix in H as (u1 & s1 & -> & H1).
    apply (IH2 He) in H1 as (u2 & b2 & s2 & -> & H2).
    exists (u1 ++ u2), b2, s2; split; [now rewrite <- app_assoc | exact H2].
  - destruct He as [He1 He2].
    destruct (m r1 b s k) eqn:E.
    + injection H as <-. now apply (IH1 He1) in E.
    + now apply (IH2 He2) in H.
Qed.

(** Consequently a pattern ending in [c] never matches inside a text without
    [c]. *)
Lemma match_at_none_without (c : ascii) (r : regex) :
  ends_with c r -> forall b s, ~ In c s -> match_at r b s = None.
Proof.
  intros He b s Hs. unfold match_at.
  destruct (m r b s _) eqn:E; [| reflexivity].
  apply (m_ends_with c r He) in E as (u & b' & s' & -> & _).
  exfalso. apply Hs, in_or_app. right. now left.
Qed.

Lemma sub_go_without (c : ascii) (r : regex) (repl : list ascii) :
  ends_with c r -> forall n b l, ~ In c l -> sub_go n r repl b l = l.
Proof.
  intros He n. induction n as [| n IH]; intros b l Hl; [reflexivity |].
  cbn [sub_go]. rewrite (match_at_none_without c r He b l Hl).
  destruct l as [| d t]; [reflexivity |].
  f_equal. apply IH. intro Ht. apply Hl. now right.
Qed.

Lemma split_at_char (c : ascii) :
  forall u s' p l, p ++ l = u ++ c :: s' -> ~ In c l ->
  exists p2, p = u ++ c :: p2 /\ s' = p2 ++ l.
Proof.
  induction u as [| a u IH]; intros s' p l E Hl.
  - destruct p as [| a p].
    + exfalso. apply Hl. cbn [app] in E. rewrite E. now left.
    + injection E as -> <-. now exists p.
  - destruct p as [| a' p].
    + exfalso. apply Hl. cbn [app] in E. rewrite E. right. apply in_or_app. right. now left.
    + injection E as -> E.
      destruct (IH s' p l E Hl) as (p2 & -> & ->).
      now exists p2.
Qed.

(** Substitution with a pattern ending in [c] leaves the text after the last
    [c] as it is. *)
Lemma sub_go_keeps_tail (c : ascii) (r : regex) (repl : list ascii) :
  ends_with c r ->
  forall n b p l, ~ In c l -> List.length p + List.length l < n ->
  exists q, sub_go n r repl b (p ++ l) = q ++ l.
Proof.
  intros He n. induction n as [| n IH]; intros b p l Hl Hn; [lia |].
  destruct p as [| a p].
  - exists []. cbn [app]. exact (sub_go_without c r repl He (S n) b l Hl).
  - cbn [sub_go].
    destruct (match_at r b ((a :: p) ++ l)) as [[b' s'] |] eqn:E.
    + pose proof E as E'. unfold match_at in E'.
      apply (m_ends_with c r He) in E' as (u & b'' & s'' & Hs & Hk).
      injection Hk as -> ->.
      destruct (split_at_char c u s' (a :: p) l Hs Hl) as (p2 & Hp & ->).
      pose proof (f_equal (@List.length ascii) Hp) as HL.
      rewrite length_app in HL. cbn [List.length] in HL, Hn.
      assert (Hlen : List.length (p2 ++ l) < List.length (a :: p ++ l)).
      { cbn [List.length]. rewrite !length_app. lia. }
      apply Nat.ltb_lt in Hlen. cbn [app]. rewrite Hlen.
      assert (Hlt : List.length p2 + List.length l < n) by lia.
      destruct (IH b' p2 l Hl Hlt) as (q & Hq).
      exists (repl ++ q). rewrite Hq. now rewrite app_assoc.
    + assert (Hlt : List.length p + List.length l < n) by (cbn [List.length] in Hn; lia).
      destruct (IH (a :: b) p l Hl Hlt) as (q & Hq).
      exists (a :: q). cbn [app]. now rewrite Hq.
Qed.

End ReFacts.

(** ** Templating control lines *)

Module JinjaLines.
Import Re Regex ReFacts.

Lemma JINJA_LINE_ends_nl : ends_with nl JINJA_LINE.
Proof. cbn. intros d H. symmetry. now apply Ascii.eqb_eq. Qed.

Lemma JINJA_SET_LINE_ends_nl : ends_with nl JINJA_SET_LINE.
Proof. cbn. intros d H. symmetry. now apply Ascii.eqb_eq. Qed.

Lemma match_at_ends_nl (r : regex) :
  ends_with nl r -> forall b s b' s',
  match_at r b s = Some (b', s') -> exists u, s = u ++ nl :: s'.
Proof.
  intros He b s b' s' H. unfold match_at in H.
  apply (m_ends_with nl r He) in H as (u & b'' & s'' & -> & Hk).
  injection Hk as _ ->. now exists u.
Qed.

End JinjaLines.


(** ** Upgrading the legacy substitution marker *)

Module Upgrade.
Import Re Regex.

Definition txt (w : string) : list ascii := list_ascii_of_string w.

(** Modelled from the spec (step 3 of the V0-to-V1 converter, in
    [recipe_parser_convert.py]): every legacy [{{] is rewritten to [${{] by
    substituting the matches of [JINJA_REPLACE_V0_STARTING_MARKER]. *)
Definition upgrade_v0_markers (s : list ascii) : list ascii :=
  sub JINJA_REPLACE_V0_STARTING_MARKER (txt "${{") s.

Definition is_lb (c : ascii) : bool := Ascii.eqb "{" c.
Definition is_dollar (c : ascii) : bool := Ascii.eqb "$" c.
Definition dollar_before (b : list ascii) : bool :=
  match b with c :: _ => is_dollar c | [] => false end.

(** The substitution as a left-to-right scan; [pd] tells whether the
    character before the scanned text is [$]. *)
Fixpoint up (pd : bool) (s : list ascii) : list ascii :=
  match s with
  | [] => []
  | a :: s1 =>
      match s1 with
      | [] => [a]
      | c :: t =>
          if is_lb a && is_lb c && negb pd then "$"%char :: "{"%char :: "{"%char :: up false t
          else a :: up (is_dollar a) s1
      end
  end.

Lemma match_at_marker (b s : list ascii) :
  match_at JINJA_REPLACE_V0_STARTING_MARKER b s =
  match s with
  | a :: c :: t =>
      if is_lb a && is_lb c && negb (dollar_before b) then Some (c :: a :: b, t) else None
  | _ => None
  end.
Proof.
  unfold match_at, JINJA_REPLACE_V0_STARTING_MARKER, dollar_before, is_dollar, is_lb.
  cbn -[Ascii.eqb].
  destruct b as [| d b]; [| destruct (Ascii.eqb "$" d)];
    (destruct s as [| a [| c t]]; cbn -[Ascii.eqb];
     [ reflexivity
     | destruct (Ascii.eqb "{" a); reflexivity
     | destruct (Ascii.eqb "{" a), (Ascii.eqb "{" c); reflexivity ]).
Qed.

Lemma sub_go_marker (n : nat) :
  forall b s, List.length s < n ->
  sub_go n JINJA_REPLACE_V0_STARTING_MARKER (txt "${{") b s = up (dollar_before b) s.
Proof.
  induction n as [| n IH]; intros b s Hn; [lia |].
  cbn [sub_go]. rewrite match_at_marker.
  destruct s as [| a [| c t]]; cbn [up].
  - reflexivity.
  - rewrite IH by (cbn in Hn |- *; lia). reflexivity.
  - destruct (is_lb a && is_lb c && negb (dollar_before b)) eqn:E.
    + assert (Hl : (List.length t <? List.length (a :: c :: t)) = true)
        by (apply Nat.ltb_lt; cbn; lia).
      rewrite Hl. cbn [txt list_ascii_of_string app].
      rewrite IH by (cbn in Hn |- *; lia).
      unfold dollar_before, is_dollar.
      apply andb_true_iff in E as [E _]. apply andb_true_iff in E as [_ Ec]. unfold is_lb in Ec.
      apply Ascii.eqb_eq in Ec. subst c. reflexivity.
    + rewrite IH by (cbn in Hn |- *; lia). reflexivity.
Qed.

Lemma upgrade_up (s : list ascii) : upgrade_v0_markers s = up false s.
Proof. unfold upgrade_v0_markers, sub. apply sub_go_marker. lia. Qed.

(** [clean pd o]: [o] has no [{{] left that is not preceded by [$]. *)
Fixpoint clean (pd : bool) (o : list ascii) : bool :=
  match o with
  | a :: ((c :: _) as o1) => negb (is_lb a && is_lb c && negb pd) && clean (is_dollar a) o1
  | _ => true
  end.

Lemma up_clean (o : list ascii) : forall pd, clean pd o = true -> up pd o = o.
Proof.
  induction o as [| a o IH]; intros pd H; [reflexivity |].
  destruct o as [| c t]; [reflexivity |].
  change (clean pd (a :: c :: t))
    with (negb (is_lb a && is_lb c && negb pd) && clean (is_dollar a) (c :: t)) in H.
  apply andb_true_iff in H as [H1 H2].
  apply negb_true_iff in H1.
  cbn [up]. rewrite H1. f_equal. now apply IH.
Qed.

(** Three consecutive opening braces. *)
Fixpoint has_triple_lb (s : list ascii) : bool :=
  match s with
  | a :: ((b :: c :: _) as s1) => (is_lb a && is_lb b && is_lb c) || has_triple_lb s1
  | _ => false
  end.

Lemma has_triple_lb_tail (a : ascii) (s : list ascii) :
  has_triple_lb (a :: s) = false -> has_triple_lb s = false.
Proof.
  destruct s as [| b [| c t]]; cbn; try reflexivity.
  intro H. apply orb_false_iff in H. apply H.
Qed.

Lemma up_starts_lb (pd : bool) (s o : list ascii) :
  up pd s = "{"%char :: o -> exists s', s = "{"%char :: s'.
Proof.
  destruct s as [| a [| c t]]; cbn [up]; try discriminate.
  - intro H. injection H as -> _. now exists [].
  - destruct (is_lb a && is_lb c && negb pd); [discriminate |].
    intro H. injection H as -> _. now exists (c :: t).
Qed.

Lemma up_not_lb (pd : bool) (s : list ascii) :
  (forall s', s <> "{"%char :: s') -> forall o, up pd s <> "{"%char :: o.
Proof.
  intros Hs o Ho. apply up_starts_lb in Ho as (s' & ->). now apply (Hs s').
Qed.

Lemma clean_cons (pd : bool) (a : ascii) (o : list ascii) :
  (is_lb a && negb pd = true -> forall o', o <> "{"%char :: o') ->
  clean (is_dollar a) o = true -> clean pd (a :: o) = true.
Proof.
  intros Ha Ho. destruct o as [| c t]; [reflexivity |].
  change (clean pd (a :: c :: t))
    with (negb (is_lb a && is_lb c && negb pd) && clean (is_dollar a) (c :: t)).
  rewrite Ho, andb_true_r.
  destruct (is_lb a) eqn:Ea; [| reflexivity].
  destruct (is_lb c) eqn:Ec; [| reflexivity].
  destruct pd; [reflexivity |].
  exfalso. unfold is_lb in Ec. apply Ascii.eqb_eq in Ec. subst c.
  now apply (Ha eq_refl t).
Qed.

(** Without three consecutive braces in the input, the output of the rewrite
    has no unguarded [{{] left. *)
Lemma up_clean_out (n : nat) :
  forall pd s, List.length s < n -> has_triple_lb s = false -> clean pd (up pd s) = true.
Proof.
  induction n as [| n IH]; intros pd s Hn Ht; [lia |].
  destruct s as [| a [| c t]]; [reflexivity | reflexivity |].
  change (up pd (a :: c :: t)) with
    (if is_lb a && is_lb c && negb pd then "$"%char :: "{"%char :: "{"%char :: up false t
     else a :: up (is_dollar a) (c :: t)).
  destruct (is_lb a && is_lb c && negb pd) eqn:E.
  - apply andb_true_iff in E as [E _]. apply andb_true_iff in E as [Ea Ec].
    assert (Ht' : forall t', t <> "{"%char :: t').
    { intros t' ->. cbn [has_triple_lb] in Ht. rewrite Ea, Ec in Ht. discriminate. }
    apply clean_cons; [intros H; cbn in H; discriminate H |].
    apply clean_cons; [intros H; cbn in H; discriminate H |].
    apply clean_cons; [intros _; now apply up_not_lb |].
    apply IH; [cbn in Hn; lia |].
    apply has_triple_lb_tail in Ht. now apply has_triple_lb_tail in Ht.
  - apply clean_cons.
    + intros Ea o' Ho.
      apply up_starts_lb in Ho as (s' & Hs). injection Hs as Hs _. subst c.
      apply andb_true_iff in Ea as [Ea Epd].
      rewrite Ea, Epd in E. discriminate.
    + apply IH; [cbn in Hn |- *; lia |]. now apply has_triple_lb_tail in Ht.
Qed.

Lemma up_cons2 (pd : bool) (a c : ascii) (t : list ascii) :
  up pd (a :: c :: t) =
  if is_lb a && is_lb c && negb pd then "$"%char :: "{"%char :: "{"%char :: up false t
  else a :: up (is_dollar a) (c :: t).
Proof. reflexivity. Qed.

(** Splitting the scan at a character that is not a brace. *)
Lemma up_app_nonlb (c : ascii) (r : list ascii) :
  is_lb c = false ->
  forall n p pd, List.length p < n -> up pd (p ++ c :: r) = up pd p ++ c :: up (is_dollar c) r.
Proof.
  intros Hc n. induction n as [| n IH]; intros p pd Hn; [lia |].
  destruct p as [| a [| a' p]].
  - cbn [app]. destruct r as [| d r]; [reflexivity |].
    rewrite up_cons2, Hc. reflexivity.
  - cbn [app]. rewrite up_cons2, Hc, andb_false_r. cbn [andb].
    change (up pd [a]) with [a]. cbn [app]. f_equal.
    apply (IH []). cbn in Hn |- *. lia.
  - cbn [app]. rewrite (up_cons2 pd a a'), (up_cons2 pd a a').
    destruct (is_lb a && is_lb a' && negb pd).
    + cbn [app]. do 3 f_equal. apply IH. cbn in Hn. lia.
    + cbn [app]. f_equal.
      change (a' :: p ++ c :: r) with ((a' :: p) ++ c :: r).
      apply IH. cbn in Hn |- *. lia.
Qed.

End Upgrade.

(** ** Canonical sort-order tables and the SPDX misspelling table *)

Module Tables.
Local Open Scope string_scope.
Local Open Scope Z_scope.

(** Dictionary literals as association lists in declaration order. *)

Definition TOP_LEVEL_KEY_SORT_ORDER : list (string * Z) :=
  [("schema_version", 0); ("context", 10); ("package", 20); ("recipe", 30);
   ("source", 40); ("files", 50); ("build", 60); ("requirements", 70);
   ("outputs", 80); ("test", 90); ("tests", 100); ("about", 110); ("extra", 120)].

Definition V1_SOURCE_SECTION_KEY_SORT_ORDER : list (string * Z) :=
  [("url", 0); ("sha256", 10); ("md5", 20);
   ("path", 30); ("use_gitignore", 40);
   ("git", 50); ("branch", 60); ("tag", 70); ("rev", 80); ("depth", 90); ("lfs", 100);
   ("target_directory", 120); ("file_name", 130); ("patches", 140)].

Definition V1_BUILD_SECTION_KEY_SORT_ORDER : list (string * Z) :=
  [("number", 0); ("string", 10); ("skip", 20); ("noarch", 30); ("script", 40);
   ("merge_build_and_host_envs", 50); ("always_include_files", 60);
   ("always_copy_files", 70); ("variant", 80); ("python", 90);
   ("prefix_detection", 100); ("dynamic_linking", 110)].

Definition V1_TEST_SECTION_KEY_SORT_ORDER : list (string * Z) :=
  [("script", 0); ("requirements", 10); ("files", 20); ("python", 30); ("downstream", 40)].

Definition dq_str (w : string) : string := String Regex.dq w.

(** The key [BSD 2-CLAUSE DQ SIMPLIFIED DQ] holds two double quotes. *)
Definition SPDX_COMMON_MISSPELLINGS_TBL : list (string * string) :=
  [("APACHE LICENSE 1.0", "Apache-1.0");
   ("APACHE LICENSE 1.1", "Apache-1.1");
   ("APACHE LICENSE 2.0", "Apache-2.0");
   ("BSD 1-CLAUSE", "BSD-1-Clause");
   ("BSD 2-CLAUSE " ++ dq_str ("SIMPLIFIED" ++ dq_str ""), "BSD-2-Clause");
   ("BSD_2_CLAUSE", "BSD-2-Clause");
   ("BSD 3-CLAUSE", "BSD-3-Clause");
   ("BSD_3_CLAUSE", "BSD-3-Clause");
   ("GPL-2", "GPL-2.0");
   ("GPL-3", "GPL-3.0")].

(** [dict.get(k)] on a dictionary without repeated keys. *)
Fixpoint lookup {A : Type} (k : string) (tbl : list (string * A)) : option A :=
  match tbl with
  | [] => None
  | (k', v) :: tbl' => if String.eqb k k' then Some v else lookup k tbl'
  end.

Fixpoint strictly_increasing (l : list Z) : bool :=
  match l with
  | x :: ((y :: _) as l') => (x <? y) && strictly_increasing l'
  | _ => true
  end.

Fixpoint distinct_keys {A : Type} (tbl : list (string * A)) : bool :=
  match tbl with
  | [] => true
  | (k, _) :: tbl' => negb (existsb (fun p => String.eqb k (fst p)) tbl') && distinct_keys tbl'
  end.

Lemma strictly_increasing_sorted (l : list Z) :
  strictly_increasing l = true -> StronglySorted Z.lt l.
Proof.
  intro H. apply Sorted_StronglySorted; [intros x y z; lia |].
  induction l as [| x l IH]; [constructor |].
  destruct l as [| y l]; [repeat constructor |].
  cbn [strictly_increasing] in H. apply andb_true_iff in H as [Hxy H].
  constructor; [now apply IH | constructor; now apply Z.ltb_lt].
Qed.

(** In a table whose ranks strictly increase, two different keys have
    different ranks. *)
Lemma ranks_injective {A : Type} (tbl : list (A * Z)) :
  StronglySorted Z.lt (map snd tbl) ->
  forall k1 k2 r, In (k1, r) tbl -> In (k2, r) tbl -> k1 = k2.
Proof.
  induction tbl as [| [k r0] tbl IH]; intros Hs k1 k2 r H1 H2; [destruct H1 |].
  cbn [map snd] in Hs. apply StronglySorted_inv in Hs as [Hs Hall].
  rewrite Forall_forall in Hall.
  destruct H1 as [E1 | H1], H2 as [E2 | H2].
  - injection E1 as <- <-. injection E2; intros; subst; reflexivity.
  - injection E1 as <- <-.
    assert (r0 < r0) by (apply Hall; apply in_map_iff; now exists (k2, r0)). lia.
  - injection E2 as <- <-.
    assert (r0 < r0) by (apply Hall; apply in_map_iff; now exists (k1, r0)). lia.
  - now apply (IH Hs k1 k2 r).
Qed.

Lemma lookup_in {A : Type} (tbl : list (string * A)) :
  distinct_keys tbl = true -> forall k v, In (k, v) tbl -> lookup k tbl = Some v.
Proof.
  induction tbl as [| [k' v'] tbl IH]; intros Hd k v H; [destruct H |].
  cbn [distinct_keys] in Hd. apply andb_true_iff in Hd as [Hn Hd].
  cbn [lookup]. destruct H as [E | H].
  - injection E as <- <-. now rewrite String.eqb_refl.
  - destruct (String.eqb k k') eqn:E.
    + apply String.eqb_eq in E. subst k'. exfalso.
      apply negb_true_iff in Hn.
      assert (existsb (fun p => String.eqb k (fst p)) tbl = true)
        by (apply existsb_exists; exists (k, v); split; [exact H | apply String.eqb_refl]).
      congruence.
    + now apply IH.
Qed.

Lemma lookup_notin {A : Type} (tbl : list (string * A)) :
  forall k, ~ In k (map fst tbl) -> lookup k tbl = None.
Proof.
  induction tbl as [| [k' v'] tbl IH]; intros k H; [reflexivity |].
  cbn [lookup]. destruct (String.eqb k k') eqn:E.
  - apply String.eqb_eq in E. subst k'. exfalso. apply H. now left.
  - apply IH. intro H'. apply H. now right.
Qed.

(** Modelled from the spec (section 4.5; the normaliser is not in these
    sources): an exact, case-sensitive lookup in the misspelling table, the
    input being returned unchanged when it is not a key. *)
Definition normalize_license (s : string) : string :=
  match lookup s SPDX_COMMON_MISSPELLINGS_TBL with
  | Some v => v
  | None => s
  end.

End Tables.

(** ** Canonical re-ordering of mapping entries *)

Module KeySort.
Import Tables.
Local Open Scope Z_scope.

Section Sort.
Variable A : Type.
(** The canonicalization table applied to the mapping. *)
Variable tbl : list (string * Z).

Definition rank (e : string * A) : option Z := lookup (fst e) tbl.

(** Ranked keys in rank order, then unranked keys. *)
Definition rank_le (x y : option Z) : bool :=
  match x, y with
  | Some a, Some b => a <=? b
  | Some _, None => true
  | None, None => true
  | None, Some _ => false
  end.

Definition entry_le (e1 e2 : string * A) : Prop := rank_le (rank e1) (rank e2) = true.

Fixpoint insert (e : string * A) (l : list (string * A)) : list (string * A) :=
  match l with
  | [] => [e]
  | h :: t => if rank_le (rank e) (rank h) then e :: h :: t else h :: insert e t
  end.

(** Modelled from the spec (section 4.4; the re-ordering code is not in these
    sources): a stable sort of the mapping's entries, each entry moved whole,
    keys absent from the table sorting after all ranked keys.  Inserting each
    entry before the first entry of equal or greater rank keeps entries of
    equal rank in their original order, as Python's [list.sort] does. *)
Fixpoint sort_keys (l : list (string * A)) : list (string * A) :=
  match l with
  | [] => []
  | e :: l' => insert e (sort_keys l')
  end.

Lemma rank_le_total (x y : option Z) : rank_le x y = false -> rank_le y x = true.
Proof. destruct x, y; cbn; try discriminate; try reflexivity. intro H. apply Z.leb_gt in H. apply Z.leb_le. lia. Qed.

Lemma rank_le_trans (x y z : option Z) :
  rank_le x y = true -> rank_le y z = true -> rank_le x z = true.
Proof.
  destruct x, y, z; cbn; try discriminate; try reflexivity.
  rewrite !Z.leb_le. lia.
Qed.

Lemma insert_perm (e : string * A) (l : list (string * A)) : Permutation (insert e l) (e :: l).
Proof.
  induction l as [| h t IH]; cbn; [reflexivity |].
  destruct (rank_le (rank e) (rank h)); [reflexivity |].
  rewrite IH. apply perm_swap.
Qed.

Lemma sort_keys_perm (l : list (string * A)) : Permutation (sort_keys l) l.
Proof.
  induction l as [| e l IH]; cbn; [reflexivity |].
  rewrite insert_perm. now apply perm_skip.
Qed.

Lemma insert_sorted (e : string * A) (l : list (string * A)) :
  Sorted entry_le l -> Sorted entry_le (insert e l).
Proof.
  induction l as [| h t IH]; intro Hs; cbn; [repeat constructor |].
  destruct (rank_le (rank e) (rank h)) eqn:E.
  - constructor; [exact Hs | now constructor].
  - apply Sorted_inv in Hs as [Ht Hh].
    constructor; [now apply IH |].
    destruct t as [| h' t]; cbn.
    + constructor. unfold entry_le. now apply rank_le_total.
    + apply HdRel_inv in Hh.
      destruct (rank_le (rank e) (rank h')); constructor;
        [unfold entry_le; now apply rank_le_total | exact Hh].
Qed.

Lemma sort_keys_sorted (l : list (string * A)) : Sorted entry_le (sort_keys l).
Proof. induction l as [| e l IH]; cbn; [constructor | now apply insert_sorted]. Qed.

Definition unranked (e : string * A) : bool :=
  match rank e with None => true | Some _ => false end.

Lemma filter_insert (e : string * A) (l : list (string * A)) :
  filter unranked (insert e l) = if unranked e then e :: filter unranked l else filter unranked l.
Proof.
  induction l as [| h t IH]; cbn [insert filter].
  - destruct (unranked e); reflexivity.
  - destruct (rank_le (rank e) (rank h)) eqn:E; cbn [filter]; [reflexivity |].
    rewrite IH.
    assert (Hh : unranked h = false).
    { unfold unranked. destruct (rank h); [reflexivity |].
      destruct (rank e); discriminate E. }
    rewrite Hh. destruct (unranked e); reflexivity.
Qed.

Lemma sort_keys_unranked (l : list (string * A)) :
  filter unranked (sort_keys l) = filter unranked l.
Proof.
  induction l as [| e l IH]; cbn; [reflexivity |].
  rewrite filter_insert, IH. reflexivity.
Qed.

End Sort.

Arguments rank {A} tbl e.
Arguments sort_keys {A} tbl l.
Arguments unranked {A} tbl e.

End KeySort.

(** ** Document model and selector warnings *)

Module Doc.

(** Modelled from the spec (section 3, Node; the node class is in the parser,
    not in these sources): scalars, sequences and mappings, each with an
    optional selector. *)
#[warnings="-register-all"]
Inductive node : Type :=
| Scalar (value : string) (selector : option string)
| Sequence (items : list node) (selector : option string)
| Mapping (entries : list (string * node)) (selector : option string).

Definition has_selector (n : node) : bool :=
  match n with
  | Scalar _ (Some _) | Sequence _ (Some _) | Mapping _ (Some _) => true
  | _ => false
  end.

(** [str(i)] for a list index. *)
Fixpoint digits_rev (fuel n : nat) : list ascii :=
  match fuel with
  | O => []
  | S f =>
      let d := ascii_of_nat (48 + n mod 10) in
      if Nat.ltb n 10 then [d] else d :: digits_rev f (n / 10)
  end.
Definition string_of_nat (n : nat) : string := string_of_list_ascii (rev (digits_rev (S n) n)).

(** [ROOT_NODE_VALUE] and the slash-joined form of a path. *)
Definition ROOT_NODE_VALUE : string := "/"%string.
Definition path_string (p : list string) : string :=
  match p with
  | [] => ROOT_NODE_VALUE
  | _ => String.concat "" (map (fun seg => "/" ++ seg)%string p)
  end.

Fixpoint flat_map_i {A B : Type} (f : nat -> A -> list B) (i : nat) (l : list A) : list B :=
  match l with
  | [] => []
  | x :: t => f i x ++ flat_map_i f (S i) t
  end.

(** Modelled from the spec (sections 4.3 and 4.6, step 5; the walk is in the
    converter, not in these sources): one pass over the tree, pre-order,
    collecting the path of every node that carries a selector while its parent
    is a mapping.  [in_map] tells whether the parent of [n] is a mapping. *)
Fixpoint selector_paths (in_map : bool) (path : list string) (n : node) {struct n}
    : list (list string) :=
  (if in_map && has_selector n then [path] else []) ++
  match n with
  | Scalar _ _ => []
  | Sequence items _ =>
      flat_map_i (fun i c => selector_paths false (path ++ [string_of_nat i]) c) 0 items
  | Mapping entries _ =>
      flat_map (fun '(k, c) => selector_paths true (path ++ [k]) c) entries
  end.

Definition warning_text (p : list string) : string :=
  ("A non-list item had a selector at: " ++ path_string p)%string.

Definition selector_warnings (n : node) : list string :=
  map warning_text (selector_paths false [] n).

(** [reach pm n q m b]: following the path [q] from [n] (whose parent is a
    mapping when [pm]) leads to the node [m], whose parent is a mapping when
    [b]. *)
Inductive reach : bool -> node -> list string -> node -> bool -> Prop :=
| reach_here pm n : reach pm n [] n pm
| reach_seq pm items sel i c q m b :
    nth_error items i = Some c -> reach false c q m b ->
    reach pm (Sequence items sel) (string_of_nat i :: q) m b
| reach_map pm entries sel k c q m b :
    In (k, c) entries -> reach true c q m b ->
    reach pm (Mapping entries sel) (k :: q) m b.

(** Induction over nodes with a hypothesis for every child. *)
Fixpoint node_ind' (P : node -> Prop)
    (fs : forall v sel, P (Scalar v sel))
    (fq : forall items sel, Forall P items -> P (Sequence items sel))
    (fm : forall entries sel, Forall (fun e => P (snd e)) entries -> P (Mapping entries sel))
    (n : node) {struct n} : P n :=
  match n with
  | Scalar v sel => fs v sel
  | Sequence items sel =>
      fq items sel
        ((fix go (l : list node) : Forall P l :=
            match l with
            | [] => Forall_nil P
            | c :: t => Forall_cons c (node_ind' P fs fq fm c) (go t)
            end) items)
  | Mapping entries sel =>
      fm entries sel
        ((fix go (l : list (string * node)) : Forall (fun e => P (snd e)) l :=
            match l with
            | [] => Forall_nil _
            | (k, c) :: t => Forall_cons (k, c) (node_ind' P fs fq fm c) (go t)
            end) entries)
  end.

Lemma in_flat_map_i {A B : Type} (f : nat -> A -> list B) (y : B) :
  forall l i, In y (flat_map_i f i l) <-> exists j x, nth_error l j = Some x /\ In y (f (i + j) x).
Proof.
  induction l as [| x l IH]; intros i; cbn [flat_map_i].
  - split; [intros [] | intros (j & x & H & _); destruct j; discriminate H].
  - rewrite in_app_iff, IH. split.
    + intros [H | (j & x' & Hj & H)].
      * exists 0, x. rewrite Nat.add_0_r. split; [reflexivity | exact H].
      * exists (S j), x'. rewrite Nat.add_succ_r, <- Nat.add_succ_l. split; [exact Hj | exact H].
    + intros (j & x' & Hj & H). destruct j as [| j].
      * left. injection Hj as <-. now rewrite Nat.add_0_r in H.
      * right. exists j, x'. rewrite Nat.add_succ_r, <- Nat.add_succ_l in H. split; [exact Hj | exact H].
Qed.

Lemma in_here (pm : bool) (n : node) (acc p : list string) :
  In p (if pm && has_selector n then [acc] else []) <->
  p = acc /\ pm = true /\ has_selector n = true.
Proof.
  destruct pm, (has_selector n); cbn; split; intuition congruence.
Qed.

(** One pass reports exactly the paths that lead to a node with a selector
    whose parent is a mapping. *)
Lemma selector_paths_spec (n : node) :
  forall pm acc p,
  In p (selector_paths pm acc n) <->
  exists q m, p = acc ++ q /\ reach pm n q m true /\ has_selector m = true.
Proof.
  induction n as [v sel | items sel IH | entries sel IH] using node_ind';
    intros pm acc p; cbn [selector_paths]; rewrite in_app_iff, in_here.
  - cbn [In]. split.
    + intros [(-> & -> & Hs) | []]. exists [], (Scalar v sel).
      rewrite app_nil_r. repeat split; [constructor | exact Hs].
    + intros (q & m & -> & Hr & Hs). inversion Hr; subst.
      left. rewrite app_nil_r. now repeat split.
  - rewrite in_flat_map_i. rewrite Forall_forall in IH. split.
    + intros [(-> & -> & Hs) | (j & c & Hj & H)].
      * exists [], (Sequence items sel). rewrite app_nil_r.
        repeat split; [constructor | exact Hs].
      * apply (IH c (nth_error_In _ _ Hj)) in H as (q & m & -> & Hr & Hs).
        exists (string_of_nat j :: q), m. rewrite <- app_assoc.
        repeat split; [| exact Hs]. now apply reach_seq with c.
    + intros (q & m & -> & Hr & Hs). inversion Hr; subst.
      * left. rewrite app_nil_r. now repeat split.
      * right. exists i, c. split; [assumption |].
        match goal with Hi : nth_error items i = Some c |- _ =>
          apply (IH c (nth_error_In _ _ Hi)) end.
        exists q0, m. rewrite <- app_assoc. now repeat split.
  - rewrite in_flat_map. rewrite Forall_forall in IH. split.
    + intros [(-> & -> & Hs) | ([k c] & He & H)].
      * exists [], (Mapping entries sel). rewrite app_nil_r.
        repeat split; [constructor | exact Hs].
      * apply (IH (k, c) He) in H as (q & m & -> & Hr & Hs).
        exists (k :: q), m. rewrite <- app_assoc.
        repeat split; [| exact Hs]. now apply reach_map with c.
    + intros (q & m & -> & Hr & Hs). inversion Hr; subst.
      * left. rewrite app_nil_r. now repeat split.
      * right. exists (k, c). split; [assumption |].
        match goal with Hi : In (k, c) entries |- _ => apply (IH (k, c) Hi) end.
        exists q0, m. rewrite <- app_assoc. now repeat split.
Qed.

End Doc.

(** ** The V0-to-V1 converter and the documents it reads *)

Module Convert.
Import Doc.

Inductive category : Type := ERROR | WARNING.

Definition message : Type := (category * string)%type.

(** Modelled from the spec (section 3, Document; the class is in
    [recipe_parser.py], not in these sources): the parse tree, the text the
    document was loaded from and the modification flag. *)
Record document : Type := mk_document {
  doc_tree : node;
  doc_text : string;
  doc_modified : bool
}.

(** Python objects are shared by reference: the documents live in a heap and
    are named by their index in it. *)
Definition heap : Type := list document.

Fixpoint update_nth {A : Type} (i : nat) (f : A -> A) (l : list A) : list A :=
  match l, i with
  | [], _ => []
  | x :: t, O => f x :: t
  | x :: t, S i' => x :: update_nth i' f t
  end.

(** Modelled from the spec (section 4.2): loading a document. *)
Definition load (h : heap) (tree : node) (text : string) : heap * nat :=
  (h ++ [mk_document tree text false], List.length h).

(** Modelled from the spec (section 4.2): a mutating operation ([set] or
    [remove]) replaces the tree and raises the modification flag, whether or
    not the tree changed. *)
Definition doc_update (h : heap) (d : nat) (f : node -> node) : heap :=
  update_nth d (fun x => mk_document (f (doc_tree x)) (doc_text x) true) h.

Definition is_modified (h : heap) (d : nat) : option bool :=
  option_map doc_modified (nth_error h d).

Section Converter.
(** Rendering a tree to text (section 4.2), and the line-oriented delta of
    [diff()]. *)
Variable render : node -> string.
Variable line_delta : string -> string -> string.
(** The restructuring steps 2-6 of section 4.6, each turning the working tree
    into a new tree and some messages. *)
Variable steps : list (node -> node * list message).

Definition diff (h : heap) (d : nat) : option string :=
  option_map (fun x => if String.eqb (render (doc_tree x)) (doc_text x) then EmptyString
                       else line_delta (doc_text x) (render (doc_tree x)))
             (nth_error h d).

Inductive outcome : Type := SUCCESS | SUCCESS_WITH_WARNINGS | FAILURE.

Definition outcome_of (msgs : list message) : outcome :=
  if existsb (fun m => match fst m with ERROR => true | WARNING => false end) msgs then FAILURE
  else if existsb (fun m => match fst m with WARNING => true | ERROR => false end) msgs
       then SUCCESS_WITH_WARNINGS else SUCCESS.

Definition run_step (w : nat) (acc : heap * list message) (st : node -> node * list message)
    : heap * list message :=
  let '(h, msgs) := acc in
  match nth_error h w with
  | Some x => let '(t', ms) := st (doc_tree x) in (doc_update h w (fun _ => t'), msgs ++ ms)
  | None => (h, msgs)
  end.

(** Modelled from the spec (section 4.6; [render_to_v1_recipe_format] is in
    [recipe_parser_convert.py], not in these sources): the source document is
    cloned into a new working document, every step edits the working
    document, and the working document is rendered. *)
Definition render_to_v1 (h : heap) (d : nat)
    : option (heap * (string * list message * outcome)) :=
  match nth_error h d with
  | None => None
  | Some src =>
      let '(h1, w) := load h (doc_tree src) (doc_text src) in
      let '(h2, msgs) := fold_left (run_step w) steps (h1, []) in
      let text := match nth_error h2 w with Some x => render (doc_tree x) | None => EmptyString end in
      Some (h2, (text, msgs, outcome_of msgs))
  end.

Lemma nth_error_update_other {A : Type} (f : A -> A) :
  forall l i j, i <> j -> nth_error (update_nth j f l) i = nth_error l i.
Proof.
  induction l as [| x l IH]; intros i j Hij; [destruct j; reflexivity |].
  destruct i as [| i], j as [| j]; cbn; try reflexivity; [congruence |].
  apply IH. congruence.
Qed.

Lemma update_nth_length {A : Type} (f : A -> A) :
  forall l j, List.length (update_nth j f l) = List.length l.
Proof. induction l as [| x l IH]; intros [| j]; cbn; auto. Qed.

(** The steps only touch the working document. *)
Lemma run_steps_frame (w : nat) :
  forall sts h msgs h' msgs',
  fold_left (run_step w) sts (h, msgs) = (h', msgs') ->
  List.length h' = List.length h /\ forall i, i <> w -> nth_error h' i = nth_error h i.
Proof.
  induction sts as [| st sts IH]; intros h msgs h' msgs' E; cbn in E.
  - injection E as <- _. split; reflexivity.
  - unfold run_step at 1 in E.
    destruct (nth_error h w) as [x |] eqn:Ex.
    + destruct (st (doc_tree x)) as [t' ms].
      apply IH in E as [El Ei]. split.
      * rewrite El. apply update_nth_length.
      * intros i Hi. rewrite Ei by exact Hi. now apply nth_error_update_other.
    + exact (IH h msgs h' msgs' E).
Qed.

Lemma render_to_v1_frame (h : heap) (d : nat) h' out :
  render_to_v1 h d = Some (h', out) ->
  forall i, i < List.length h -> nth_error h' i = nth_error h i.
Proof.
  unfold render_to_v1, load. destruct (nth_error h d) as [src |]; [| discriminate].
  destruct (fold_left _ steps _) as [h2 msgs] eqn:E.
  intros H. injection H as <- _. intros i Hi.
  apply run_steps_frame in E as [_ Ei]. rewrite Ei by lia.
  now rewrite nth_error_app1.
Qed.

End Converter.

End Convert.

(** ** Example inputs *)

Module Examples.
Import Re Regex Upgrade Doc Convert.
Local Open Scope string_scope.

Definition no_nl (l : list ascii) : bool := negb (existsb (Ascii.eqb nl) l).

Lemma no_nl_spec (l : list ascii) : no_nl l = true -> ~ In nl l.
Proof.
  unfold no_nl. intros H Hin. apply negb_true_iff in H.
  assert (existsb (Ascii.eqb nl) l = true)
    by (apply existsb_exists; exists nl; split; [exact Hin | apply Ascii.eqb_refl]).
  congruence.
Qed.

(** A line that uses the bare [environ] and then the qualified
    [os.environ]. *)
Definition environ_line : list ascii :=
  txt "x: environ[" ++ [dq] ++ txt "A" ++ [dq] ++ txt "] + os.environ[" ++ [dq] ++
  txt "B" ++ [dq] ++ txt "]".

(** A one-line document whose root is the scalar [schema_version: 1], and a
    render that writes the value of a scalar root: the loaded document
    renders back to its text, so its [diff()] is empty. *)
Definition scalar_text : string := "schema_version: 1".
Definition render_scalar (n : node) : string :=
  match n with Scalar v _ => v | _ => EmptyString end.

(** That document, loaded and then changed by [set] with its own value: the
    flag is raised while the tree, and so the rendered text, is unchanged. *)
Definition touched_heap : heap :=
  let '(h, d) := load [] (Scalar scalar_text None) scalar_text in doc_update h d (fun t => t).

(** A converter step that replaces the working tree and reports a warning. *)
Definition replace_step (n : node) : node * list message :=
  (Scalar "schema_version: 1" None, [(WARNING, "step"%string)]).

End Examples.

(** ** Greedy repetition of a character class, and [search] *)

Module ReSpec.
Import Re.

Section StarSet.
Variable X : Type.
Variable p : ascii -> bool.
Variable k : list ascii -> list ascii -> option X.

(** [p*] followed by [k]: the longest run of [p] characters is tried first,
    then shorter ones. *)
Fixpoint star_set (b s : list ascii) : option X :=
  match s with
  | c :: t =>
      if p c then
        match star_set (c :: b) t with
        | Some x => Some x
        | None => k b s
        end
      else k b s
  | [] => k b s
  end.

Lemma m_star_set (b s : list ascii) : m (RStar (RSet p)) b s k = star_set b s.
Proof.
  cbn [m].
  assert (H : List.length s <= List.length s) by lia. revert H.
  generalize (List.length s) at 2 3 as n. intros n. revert b s.
  induction n as [| n IH]; intros b s H.
  - destruct s as [| c t]; [reflexivity | cbn in H; lia].
  - destruct s as [| c t]; [reflexivity |].
    cbn [m List.length star_set]. destruct (p c); [| reflexivity].
    assert (Hl : (List.length t <? S (List.length t)) = true) by (apply Nat.ltb_lt; lia).
    rewrite Hl, IH by (cbn in H; lia). reflexivity.
Qed.

(** When [star_set] fails, [k] fails after every run of [p] characters. *)
Lemma star_set_none (s : list ascii) :
  forall b, star_set b s = None ->
  forall u s', s = u ++ s' -> forallb p u = true -> k (rev u ++ b) s' = None.
Proof.
  induction s as [| c t IH]; intros b H u s' Hs Hu.
  - destruct u as [| a u]; [| discriminate]. cbn in Hs |- *. now subst s'.
  - cbn [star_set] in H. destruct u as [| a u].
    + cbn in Hs |- *. subst s'. destruct (p c); [| exact H].
      destruct (star_set (c :: b) t); [discriminate | exact H].
    + injection Hs as <- Ht. cbn [forallb] in Hu. apply andb_true_iff in Hu as [Ha Hu].
      rewrite Ha in H. destruct (star_set (c :: b) t) eqn:E; [discriminate |].
      cbn [rev]. rewrite <- app_assoc. exact (IH (c :: b) E u s' Ht Hu).
Qed.

(** What a success of [star_set] means: a run [u] of [p] characters after
    which [k] succeeds, and [k] fails after every longer run. *)
Lemma star_set_some (s : list ascii) :
  forall b x, star_set b s = Some x ->
  exists u s', s = u ++ s' /\ forallb p u = true /\ k (rev u ++ b) s' = Some x /\
    forall v w, s' = v ++ w -> v <> [] -> forallb p v = true -> k (rev v ++ rev u ++ b) w = None.
Proof.
  induction s as [| c t IH]; intros b x H.
  - exists [], []. repeat split; [exact H |]. intros v w Hv Hne _.
    destruct v; [contradiction | discriminate].
  - cbn [star_set] in H. destruct (p c) eqn:Ec.
    + destruct (star_set (c :: b) t) as [y |] eqn:E.
      * injection H as <-.
        destruct (IH (c :: b) y E) as (u & s' & -> & Hu & Hk & Hmax).
        exists (c :: u), s'. cbn [rev forallb]. rewrite Ec, <- app_assoc.
        repeat split; [exact Hu | exact Hk |].
        intros v w Hv Hne Hpv. now apply Hmax.
      * exists [], (c :: t). repeat split; [exact H |].
        intros v w Hv Hne Hpv. destruct v as [| a v]; [contradiction |].
        injection Hv as <- Ht. cbn [forallb] in Hpv. apply andb_true_iff in Hpv as [_ Hpv].
        cbn [rev app]. rewrite <- app_assoc. cbn [app].
        exact (star_set_none t (c :: b) E v w Ht Hpv).
    + exists [], (c :: t). repeat split; [exact H |].
      intros v w Hv Hne Hpv. destruct v as [| a v]; [contradiction |].
      injection Hv as <- _. cbn [forallb] in Hpv. rewrite Ec in Hpv. discriminate.
Qed.

End StarSet.

(** Unfolding equations of the matcher. *)
Lemma m_cat {X : Type} (r1 r2 : regex) b s (k : list ascii -> list ascii -> option X) :
  m (RCat r1 r2) b s k = m r1 b s (fun b1 s1 => m r2 b1 s1 k).
Proof. reflexivity. Qed.

Lemma m_set {X : Type} (p : ascii -> bool) b s (k : list ascii -> list ascii -> option X) :
  m (RSet p) b s k = match s with c :: t => if p c then k (c :: b) t else None | [] => None end.
Proof. reflexivity. Qed.

Lemma m_lit {X : Type} (c : ascii) b s (k : list ascii -> list ascii -> option X) :
  m (lit c) b s k = match s with d :: t => if Ascii.eqb c d then k (d :: b) t else None | [] => None end.
Proof. reflexivity. Qed.

(** [s] with the prefix [l] removed, if [s] starts with [l]. *)
Fixpoint strip_prefix (l s : list ascii) : option (list ascii) :=
  match l with
  | [] => Some s
  | c :: l' =>
      match s with
      | d :: s' => if Ascii.eqb c d then strip_prefix l' s' else None
      | [] => None
      end
  end.

Lemma strip_prefix_spec (l : list ascii) : forall s s', strip_prefix l s = Some s' <-> s = l ++ s'.
Proof.
  induction l as [| c l IH]; intros s s'; cbn [strip_prefix app].
  - split; [intros H; now injection H as -> | intros ->; reflexivity].
  - destruct s as [| d s]; [split; discriminate |].
    destruct (Ascii.eqb c d) eqn:E.
    + apply Ascii.eqb_eq in E. subst d. rewrite IH.
      split; [intros ->; reflexivity | intros H; now injection H].
    + split; [discriminate |]. intros H. injection H as Hd _. subst d.
      now rewrite Ascii.eqb_refl in E.
Qed.

Lemma strip_prefix_cons (c d : ascii) (l s : list ascii) :
  strip_prefix (c :: l) (d :: s) = if Ascii.eqb c d then strip_prefix l s else None.
Proof. reflexivity. Qed.

(** A literal word matches exactly its own characters. *)
Lemma m_seq_lits {X : Type} (l : list ascii) :
  forall b s (k : list ascii -> list ascii -> option X),
  m (seq (map lit l)) b s k =
  match strip_prefix l s with Some s' => k (rev l ++ b) s' | None => None end.
Proof.
  induction l as [| c l IH]; intros b s k; [reflexivity |].
  destruct l as [| c' l].
  - cbn [map seq]. rewrite m_lit. destruct s as [| d s]; [reflexivity |].
    rewrite strip_prefix_cons. destruct (Ascii.eqb c d) eqn:E; [| reflexivity].
    apply Ascii.eqb_eq in E. subst d. reflexivity.
  - change (seq (map lit (c :: c' :: l))) with (RCat (lit c) (seq (map lit (c' :: l)))).
    rewrite m_cat, m_lit. destruct s as [| d s]; [reflexivity |].
    rewrite strip_prefix_cons. destruct (Ascii.eqb c d) eqn:E; [| reflexivity].
    apply Ascii.eqb_eq in E. subst d. rewrite IH.
    destruct (strip_prefix (c' :: l) s); [| reflexivity].
    cbn [rev]. rewrite <- !app_assoc. reflexivity.
Qed.

(** The 256 characters. *)
Definition all_ascii : list ascii := map ascii_of_nat (List.seq 0 256).

Lemma in_all_ascii (c : ascii) : In c all_ascii.
Proof.
  unfold all_ascii. rewrite <- (ascii_nat_embedding c). apply in_map.
  apply in_seq. pose proof (nat_ascii_bounded c). lia.
Qed.

(** [sets_ok q r]: every character class of [r] only admits characters
    satisfying [q]. *)
Fixpoint sets_ok (q : ascii -> bool) (r : regex) : bool :=
  match r with
  | RSet p => forallb (fun c => implb (p c) (q c)) all_ascii
  | RCat r1 r2 | RAlt r1 r2 => sets_ok q r1 && sets_ok q r2
  | RStar r1 => sets_ok q r1
  | RBol | RNotBehind _ | REps => true
  end.

(** The text consumed by a match consists of characters its classes admit. *)
Lemma m_chars {X : Type} (q : ascii -> bool) (r : regex) :
  sets_ok q r = true ->
  forall b s (k : list ascii -> list ascii -> option X) x,
  m r b s k = Some x ->
  exists u s', s = u ++ s' /\ forallb q u = true /\ k (rev u ++ b) s' = Some x.
Proof.
  induction r as [p | r1 IH1 r2 IH2 | r1 IH1 r2 IH2 | r1 IH1 | | c |];
    cbn [sets_ok]; intros Hq b s k x H; cbn [m] in H.
  - destruct s as [| c t]; [discriminate |].
    destruct (p c) eqn:Ep; [| discriminate].
    exists [c], t. split; [reflexivity |]. split; [| exact H].
    rewrite forallb_forall in Hq. specialize (Hq c (in_all_ascii c)).
    rewrite Ep in Hq. cbn in Hq |- *. now rewrite Hq.
  - apply andb_true_iff in Hq as [Hq1 Hq2].
    apply (IH1 Hq1) in H as (u1 & s1 & -> & Hu1 & H1).
    apply (IH2 Hq2) in H1 as (u2 & s2 & -> & Hu2 & H2).
    exists (u1 ++ u2), s2. split; [now rewrite app_assoc |].
    rewrite forallb_app, Hu1, Hu2. split; [reflexivity |].
    now rewrite rev_app_distr, <- app_assoc.
  - apply andb_true_iff in Hq as [Hq1 Hq2].
    destruct (m r1 b s k) eqn:E.
    + injection H as <-. now apply (IH1 Hq1) in E.
    + now apply (IH2 Hq2) in H.
  - revert H. generalize (List.length s) as n. intros n. revert b s.
    induction n as [| n IHn]; intros b s H.
    + exists [], s. now repeat split.
    + destruct (m r1 b s _) eqn:E.
      * injection H as <-.
        apply (IH1 Hq) in E as (u1 & s1 & -> & Hu1 & E).
        destruct (List.length s1 <? List.length (u1 ++ s1)); [| discriminate].
        apply IHn in E as (u2 & s2 & -> & Hu2 & E).
        exists (u1 ++ u2), s2. split; [now rewrite app_assoc |].
        rewrite forallb_app, Hu1, Hu2. split; [reflexivity |].
        now rewrite rev_app_distr, <- app_assoc.
      * exists [], s. now repeat split.
  - destruct b; [| discriminate]. exists [], s. now repeat split.
  - exists [], s. split; [reflexivity |]. split; [reflexivity |].
    destruct b as [| c' b]; [exact H |].
    destruct (Ascii.eqb c c'); [discriminate | exact H].
  - exists [], s. now repeat split.
Qed.

Lemma forallb_neq (c : ascii) (u : list ascii) :
  forallb (fun d => negb (Ascii.eqb d c)) u = true <-> ~ In c u.
Proof.
  rewrite forallb_forall. split.
  - intros H Hin. specialize (H c Hin). now rewrite Ascii.eqb_refl in H.
  - intros H d Hd. destruct (Ascii.eqb d c) eqn:E; [| reflexivity].
    apply Ascii.eqb_eq in E. subst d. contradiction.
Qed.

(** [hd_not p s]: [s] does not start with a character satisfying [p]. *)
Definition hd_not (p : ascii -> bool) (s : list ascii) : bool :=
  match s with c :: _ => negb (p c) | [] => true end.

(** A maximal run of [p] characters is determined by the text. *)
Lemma span_unique (p : ascii -> bool) (u : list ascii) :
  forall w s1 s2, forallb p u = true -> forallb p w = true -> u ++ s1 = w ++ s2 ->
  hd_not p s1 = true -> hd_not p s2 = true -> u = w /\ s1 = s2.
Proof.
  induction u as [| a u IH]; intros w s1 s2 Hu Hw E H1 H2; destruct w as [| a' w].
  - split; [reflexivity | exact E].
  - cbn [app] in E. subst s1. cbn [hd_not forallb] in H1, Hw.
    apply andb_true_iff in Hw as [Ha _]. rewrite Ha in H1. discriminate.
  - cbn [app] in E. subst s2. cbn [hd_not forallb] in H2, Hu.
    apply andb_true_iff in Hu as [Ha _]. rewrite Ha in H2. discriminate.
  - injection E as <- E. cbn [forallb] in Hu, Hw.
    apply andb_true_iff in Hu as [_ Hu]. apply andb_true_iff in Hw as [_ Hw].
    destruct (IH w s1 s2 Hu Hw E H1 H2) as [-> ->]. split; reflexivity.
Qed.

(** [search] returns the leftmost position where the pattern matches. *)
Lemma search_go_some (r : regex) (s : list ascii) :
  forall i b j rest, search_go r i b s = Some (j, rest) ->
  exists p s1 b', s = p ++ s1 /\ j = i + List.length p /\
    match_at r (rev p ++ b) s1 = Some (b', rest) /\
    forall p1 s2, s = p1 ++ s2 -> List.length p1 < List.length p ->
      match_at r (rev p1 ++ b) s2 = None.
Proof.
  induction s as [| c t IH]; intros i b j rest H; cbn [search_go] in H.
  - destruct (match_at r b []) as [[b' s'] |] eqn:E; [| discriminate].
    injection H as <- <-. exists [], [], b'. rewrite Nat.add_0_r.
    repeat split; [exact E |]. intros p1 s2 _ Hl. cbn in Hl. lia.
  - destruct (match_at r b (c :: t)) as [[b' s'] |] eqn:E.
    + injection H as <- <-. exists [], (c :: t), b'. rewrite Nat.add_0_r.
      repeat split; [exact E |]. intros p1 s2 _ Hl. cbn in Hl. lia.
    + apply IH in H as (p & s1 & b' & -> & -> & Hm & Hearly).
      exists (c :: p), s1, b'. cbn [List.length rev]. rewrite <- app_assoc.
      split; [reflexivity |]. split; [lia |]. split; [exact Hm |].
      intros p1 s2 Hs Hl. destruct p1 as [| a p1].
      * cbn [app] in Hs. subst s2. exact E.
      * injection Hs as <- Hs. cbn [rev]. rewrite <- app_assoc.
        apply Hearly; [exact Hs | cbn in Hl; lia].
Qed.

Lemma search_go_none (r : regex) (s : list ascii) :
  forall i b, search_go r i b s = None <->
  forall p s1, s = p ++ s1 -> match_at r (rev p ++ b) s1 = None.
Proof.
  induction s as [| c t IH]; intros i b; cbn [search_go].
  - destruct (match_at r b []) as [[b' s'] |] eqn:E.
    + split; [discriminate |]. intros H. specialize (H [] [] eq_refl). cbn in H. congruence.
    + split; [| reflexivity]. intros _ p s1 Hs.
      destruct p as [| a p]; [| discriminate]. cbn in Hs |- *. subst s1. exact E.
  - destruct (match_at r b (c :: t)) as [[b' s'] |] eqn:E.
    + split; [discriminate |]. intros H. specialize (H [] (c :: t) eq_refl). cbn in H. congruence.
    + rewrite IH. split.
      * intros H p s1 Hs. destruct p as [| a p].
        -- cbn [app] in Hs. subst s1. exact E.
        -- injection Hs as <- Hs. cbn [rev]. rewrite <- app_assoc. now apply H.
      * intros H p s1 Hs. specialize (H (c :: p) s1).
        cbn [rev] in H. rewrite <- app_assoc in H. apply H. cbn [app]. now rewrite Hs.
Qed.

End ReSpec.

(** ** What the patterns of the [Regex] namespace match *)

Module PatternFacts.
Import Re Regex ReSpec Upgrade.

Definition final (b s : list ascii) : option (list ascii * list ascii) := Some (b, s).

Definition not_nl (c : ascii) : bool := negb (Ascii.eqb c nl).

(** [DETECT_TRAILING_COMMENT] at a position: a non-empty run of whitespace
    and a [#]. *)
Lemma match_at_DTC (b s b' s' : list ascii) :
  match_at DETECT_TRAILING_COMMENT b s = Some (b', s') ->
  exists w, s = w ++ "#"%char :: s' /\ w <> [] /\ forallb is_space w = true.
Proof.
  unfold match_at, DETECT_TRAILING_COMMENT, plus, ws. rewrite !m_cat, m_set.
  destruct s as [| c t]; [discriminate |]. destruct (is_space c) eqn:Ec; [| discriminate].
  rewrite m_star_set. intros H. apply star_set_some in H as (u & s0 & -> & Hu & Hk & _).
  rewrite m_lit in Hk. destruct s0 as [| d s0]; [discriminate |].
  destruct (Ascii.eqb "#" d) eqn:Ed; [| discriminate].
  apply Ascii.eqb_eq in Ed. subst d. injection Hk as _ <-.
  exists (c :: u). split; [reflexivity |]. split; [discriminate |].
  cbn [forallb]. now rewrite Ec, Hu.
Qed.

Lemma match_at_DTC_exists (b w rest : list ascii) :
  w <> [] -> forallb is_space w = true ->
  match_at DETECT_TRAILING_COMMENT b (w ++ "#"%char :: rest) <> None.
Proof.
  destruct w as [| c w]; [contradiction |]. intros _ Hw.
  cbn [forallb] in Hw. apply andb_true_iff in Hw as [Ec Hw].
  unfold match_at, DETECT_TRAILING_COMMENT, plus, ws. rewrite !m_cat, m_set.
  cbn [app]. rewrite Ec, m_star_set. intros H.
  pose proof (star_set_none _ is_space _ _ (c :: b) H w ("#"%char :: rest) eq_refl Hw) as Hn.
  cbv beta in Hn. rewrite m_lit in Hn. discriminate Hn.
Qed.

(** [JINJA_FUNCTION_LOWER] at a position: [|], any whitespace, [lower]. *)
Lemma match_at_JFL (b s s' : list ascii) :
  (exists b', match_at JINJA_FUNCTION_LOWER b s = Some (b', s')) <->
  exists w, s = "|"%char :: w ++ txt "lower" ++ s' /\ forallb is_space w = true.
Proof.
  unfold match_at, JINJA_FUNCTION_LOWER. cbn [seq]. rewrite m_cat, m_lit.
  split.
  - intros (b' & H). destruct s as [| c t]; [discriminate |].
    destruct (Ascii.eqb "|" c) eqn:Ec; [| discriminate].
    apply Ascii.eqb_eq in Ec. subst c.
    rewrite m_cat in H. unfold ws in H. rewrite m_star_set in H.
    apply star_set_some in H as (u & s0 & -> & Hu & Hk & _).
    unfold word in Hk. rewrite m_seq_lits in Hk.
    destruct (strip_prefix _ s0) as [s1 |] eqn:E; [| discriminate].
    injection Hk as _ <-. apply strip_prefix_spec in E. subst s0.
    exists u. split; [reflexivity | exact Hu].
  - intros (w & -> & Hw). rewrite Ascii.eqb_refl, m_cat. unfold ws. rewrite m_star_set.
    destruct (star_set _ is_space _ _ _) as [x |] eqn:E.
    + apply star_set_some in E as (u & s0 & Hs & Hu & Hk & _).
      unfold word in Hk. rewrite m_seq_lits in Hk.
      destruct (strip_prefix _ s0) as [s1 |] eqn:E1; [| discriminate].
      apply strip_prefix_spec in E1. subst s0.
      destruct (span_unique is_space u w _ _ Hu Hw (eq_sym Hs) eq_refl eq_refl) as [_ Hl].
      apply app_inv_head in Hl. subst s1. injection Hk as <-. now eexists.
    + exfalso.
      pose proof (star_set_none _ is_space _ _ _ E w (txt "lower" ++ s') eq_refl Hw) as Hn.
      unfold word in Hn. rewrite m_seq_lits in Hn.
      assert (Hp : strip_prefix (list_ascii_of_string "lower") (txt "lower" ++ s') = Some s')
        by (now apply strip_prefix_spec).
      rewrite Hp in Hn. discriminate Hn.
Qed.

Lemma forallb_not_nl (u : list ascii) : forallb not_nl u = true <-> ~ In nl u.
Proof. apply forallb_neq. Qed.

(** [SELECTOR] at a position: [[], a text without newline, []], the closing
    bracket being the last one before the end of the line. *)
Lemma match_at_SELECTOR (b s b' s' : list ascii) :
  match_at SELECTOR b s = Some (b', s') ->
  exists u, s = "["%char :: u ++ "]"%char :: s' /\ ~ In nl u /\
    forall v w, s' = v ++ "]"%char :: w -> In nl v.
Proof.
  unfold match_at, SELECTOR. cbn [seq]. rewrite m_cat, m_lit.
  destruct s as [| c t]; [discriminate |].
  destruct (Ascii.eqb "[" c) eqn:Ec; [| discriminate].
  apply Ascii.eqb_eq in Ec. subst c.
  rewrite m_cat. unfold dot. rewrite m_star_set. intros H.
  apply star_set_some in H as (u & s0 & -> & Hu & Hk & Hmax).
  rewrite m_lit in Hk. destruct s0 as [| d s0]; [discriminate |].
  destruct (Ascii.eqb "]" d) eqn:Ed; [| discriminate].
  apply Ascii.eqb_eq in Ed. subst d. injection Hk as _ <-.
  exists u. split; [reflexivity |]. split; [now apply forallb_not_nl |].
  intros v w Hv. destruct (in_dec ascii_dec nl v) as [Hin | Hnin]; [exact Hin | exfalso].
  assert (Hpv : forallb (fun c => negb (Ascii.eqb c "010"%char)) ("]"%char :: v) = true).
  { cbn [forallb]. apply andb_true_iff. split; [reflexivity |]. now apply forallb_not_nl. }
  specialize (Hmax ("]"%char :: v) ("]"%char :: w)).
  rewrite m_lit in Hmax. cbn in Hmax.
  assert (Hsv : "]"%char :: s0 = ("]"%char :: v) ++ "]"%char :: w) by (rewrite Hv; reflexivity).
  specialize (Hmax Hsv ltac:(discriminate) Hpv). discriminate Hmax.
Qed.

Lemma match_at_SELECTOR_exists (b u s' : list ascii) :
  ~ In nl u -> match_at SELECTOR b ("["%char :: u ++ "]"%char :: s') <> None.
Proof.
  intros Hu. unfold match_at, SELECTOR. cbn [seq]. rewrite m_cat, m_lit.
  rewrite Ascii.eqb_refl, m_cat. unfold dot. rewrite m_star_set. intros H.
  apply forallb_not_nl in Hu.
  pose proof (star_set_none _ _ _ _ _ H u ("]"%char :: s') eq_refl Hu) as Hn.
  cbv beta in Hn. rewrite m_lit in Hn. discriminate Hn.
Qed.

Definition not_brace (c : ascii) : bool :=
  negb (Ascii.eqb c "{") && negb (Ascii.eqb c "}").

(** [JINJA_SUB] at a position: [{{], a text without braces, [}}]. *)
Lemma match_at_JINJA_SUB (b s b' s' : list ascii) :
  match_at JINJA_SUB b s = Some (b', s') ->
  exists inner, s = txt "{{" ++ inner ++ txt "}}" ++ s' /\ forallb not_brace inner = true.
Proof.
  unfold match_at, JINJA_SUB. cbn [seq]. rewrite m_cat. unfold word at 1. rewrite m_seq_lits.
  destruct (strip_prefix _ s) as [s1 |] eqn:E1; [| discriminate].
  apply strip_prefix_spec in E1. subst s. intros H.
  rewrite m_cat in H. apply (m_chars not_brace) in H as (u1 & s2 & -> & Hu1 & H);
    [| vm_compute; reflexivity].
  rewrite m_cat in H. apply (m_chars not_brace) in H as (u2 & s3 & -> & Hu2 & H);
    [| vm_compute; reflexivity].
  rewrite m_cat in H. apply (m_chars not_brace) in H as (u3 & s4 & -> & Hu3 & H);
    [| vm_compute; reflexivity].
  unfold word in H. rewrite m_seq_lits in H.
  destruct (strip_prefix _ s4) as [s5 |] eqn:E4; [| discriminate].
  apply strip_prefix_spec in E4. subst s4. injection H as _ <-.
  exists (u1 ++ u2 ++ u3). split.
  - unfold txt. now rewrite <- !app_assoc.
  - now rewrite !forallb_app, Hu1, Hu2, Hu3.
Qed.

(** [JINJA_LINE] at a position: one line, up to and including its newline. *)
Lemma match_at_JINJA_LINE (b s b' s' : list ascii) :
  match_at JINJA_LINE b s = Some (b', s') ->
  exists u, s = u ++ nl :: s' /\ ~ In nl u.
Proof.
  unfold match_at, JINJA_LINE. rewrite m_cat. intros H.
  apply (m_chars not_nl) in H as (u & s1 & -> & Hu & H); [| vm_compute; reflexivity].
  rewrite m_lit in H. destruct s1 as [| d s1]; [discriminate |].
  destruct (Ascii.eqb nl d) eqn:Ed; [| discriminate].
  apply Ascii.eqb_eq in Ed. subst d. injection H as _ <-.
  exists u. split; [reflexivity | now apply forallb_not_nl].
Qed.

(** [PRE_PROCESS_ENVIRON] at a position: a non-empty run of whitespace
    directly followed by [environ[]. *)
Lemma match_at_PRE_PROCESS_ENVIRON (b s b' s' : list ascii) :
  match_at PRE_PROCESS_ENVIRON b s = Some (b', s') ->
  exists w rest, s = w ++ txt "environ[" ++ rest /\ w <> [] /\ forallb is_space w = true.
Proof.
  unfold match_at, PRE_PROCESS_ENVIRON. cbn [seq]. rewrite m_cat. unfold plus, ws.
  rewrite m_cat, m_set. destruct s as [| c t]; [discriminate |].
  destruct (is_space c) eqn:Ec; [| discriminate].
  rewrite m_star_set. intros H. apply star_set_some in H as (u & s0 & -> & Hu & Hk & _).
  cbv beta in Hk. rewrite m_cat in Hk. unfold word in Hk. rewrite m_seq_lits in Hk.
  destruct (strip_prefix _ s0) as [s1 |] eqn:E; [| discriminate].
  apply strip_prefix_spec in E. subst s0.
  exists (c :: u), s1. split; [reflexivity |]. split; [discriminate |].
  cbn [forallb]. now rewrite Ec, Hu.
Qed.

Lemma nth_error_after (u v : list ascii) (c d : ascii) :
  nth_error (u ++ c :: d :: v) (S (List.length u)) = Some d.
Proof.
  rewrite nth_error_app2 by lia. now replace (S (List.length u) - List.length u) with 1 by lia.
Qed.

Lemma nth_error_middle (p w x : list ascii) (k : nat) :
  List.length p <= k < List.length p + List.length w ->
  nth_error (p ++ w ++ x) k = nth_error w (k - List.length p).
Proof.
  intros Hk. rewrite nth_error_app2 by lia. apply nth_error_app1. lia.
Qed.

End PatternFacts.

(** ** The SPDX misspelling table *)

Module TableFacts.
Import Tables.

Definition is_lower (c : ascii) : bool :=
  let n := nat_of_ascii c in (97 <=? n) && (n <=? 122).

(** Each row: the correction is not a key itself, differs from the key, and the
    key has no lower-case letter. *)
Definition spdx_row_ok (row : string * string) : bool :=
  let '(k, v) := row in
  match lookup v SPDX_COMMON_MISSPELLINGS_TBL with None => true | Some _ => false end &&
  negb (String.eqb v k) &&
  forallb (fun c => negb (is_lower c)) (list_ascii_of_string k).

Lemma spdx_rows_ok : forallb spdx_row_ok SPDX_COMMON_MISSPELLINGS_TBL = true.
Proof. vm_compute. reflexivity. Qed.

Lemma lookup_some_in {A : Type} (tbl : list (string * A)) :
  forall k v, lookup k tbl = Some v -> In (k, v) tbl.
Proof.
  induction tbl as [| [k' v'] tbl IH]; intros k v H; [discriminate |].
  cbn [lookup] in H. destruct (String.eqb k k') eqn:E.
  - apply String.eqb_eq in E. subst k'. injection H as <-. now left.
  - right. now apply IH.
Qed.

End TableFacts.

(** ** Exit codes of the command-line tools *)

Module ExitCodes.
Local Open Scope Z_scope.

(** [class ExitCode(IntEnum)] of [commands/utils/types.py]. *)
Inductive ExitCode : Type :=
| SUCCESS
| CLICK_ERROR
| CLICK_USAGE
| NO_FILES_FOUND
| MISSED_SUCCESS_THRESHOLD
| TIMEOUT
| RENDER_WARNINGS
| RENDER_ERRORS
| PARSE_EXCEPTION
| RENDER_EXCEPTION
| READ_EXCEPTION
| PRE_PROCESS_EXCEPTION.

(** [int(e)]. *)
Definition value (e : ExitCode) : Z :=
  match e with
  | SUCCESS => 0
  | CLICK_ERROR => 1
  | CLICK_USAGE => 2
  | NO_FILES_FOUND => 3
  | MISSED_SUCCESS_THRESHOLD => 42
  | TIMEOUT => 43
  | RENDER_WARNINGS => 100
  | RENDER_ERRORS => 101
  | PARSE_EXCEPTION => 102
  | RENDER_EXCEPTION => 103
  | READ_EXCEPTION => 104
  | PRE_PROCESS_EXCEPTION => 105
  end.

(** [list(ExitCode)]: the members in declaration order. *)
Definition members : list ExitCode :=
  [SUCCESS; CLICK_ERROR; CLICK_USAGE; NO_FILES_FOUND; MISSED_SUCCESS_THRESHOLD; TIMEOUT;
   RENDER_WARNINGS; RENDER_ERRORS; PARSE_EXCEPTION; RENDER_EXCEPTION; READ_EXCEPTION;
   PRE_PROCESS_EXCEPTION].

(** [ExitCode(n)]: the first member whose value is [n]; [None] stands for the
    [ValueError] raised for any other integer. *)
Definition of_value (n : Z) : option ExitCode :=
  find (fun e => Z.eqb (value e) n) members.

End ExitCodes.

(** * Claims *)

Module Claims.
Import Re Regex ReFacts JinjaLines Upgrade Tables KeySort Doc Convert Examples.

(** Claim C10: the control-line patterns [JINJA_LINE] and [JINJA_SET_LINE]
    only match text ending in a newline; on a text [p ++ l] whose final line
    [l] has no newline, neither pattern matches at any position inside [l],
    and substituting their matches (by whatever replacement the pre-processor
    uses) leaves [l] as it is. *)
Theorem jinja_control_lines_need_newline :
  forall p l, ~ In nl l ->
  (forall r, (r = JINJA_LINE \/ r = JINJA_SET_LINE) ->
     (forall b s b' s', match_at r b s = Some (b', s') -> exists u, s = u ++ nl :: s') /\
     (forall b l1 l2, l = l1 ++ l2 -> match_at r b l2 = None) /\
     (forall repl, exists q, sub r repl (p ++ l) = q ++ l)).
Proof.
  intros p l Hl r Hr.
  assert (He : ends_with nl r)
    by (destruct Hr as [-> | ->]; [apply JINJA_LINE_ends_nl | apply JINJA_SET_LINE_ends_nl]).
  split; [| split].
  - exact (match_at_ends_nl r He).
  - intros b l1 l2 ->. apply (match_at_none_without nl r He).
    intro H. apply Hl, in_or_app. now right.
  - intros repl. unfold sub.
    apply (sub_go_keeps_tail nl r repl He). exact Hl.
    rewrite length_app. lia.
Qed.

Lemma jinja_control_lines_need_newline_witness :
  ~ In nl (txt "{% endif %}") /\
  exists q, sub JINJA_LINE [] ((txt "{% if x %}" ++ [nl]) ++ txt "{% endif %}") = q ++ txt "{% endif %}".
Proof.
  split.
  - apply no_nl_spec. reflexivity.
  - refine (proj2 (proj2 (jinja_control_lines_need_newline
                            (txt "{% if x %}" ++ [nl]) (txt "{% endif %}") _
                            JINJA_LINE (or_introl eq_refl))) []).
    apply no_nl_spec. reflexivity.
Defined.

(** Claim C5 (counterexample): the rewrite of [{{] to [${{] is not idempotent:
    on the text [{{{] one pass gives [${{{] and a second pass [${${{]. *)
Lemma upgrade_v0_markers_twice_triple_brace :
  upgrade_v0_markers (txt "{{{") = txt "${{{" /\
  upgrade_v0_markers (upgrade_v0_markers (txt "{{{")) = txt "${${{" /\
  upgrade_v0_markers (upgrade_v0_markers (txt "{{{")) <> upgrade_v0_markers (txt "{{{").
Proof.
  split; [reflexivity | split; [reflexivity |]].
  vm_compute. discriminate.
Qed.

(** Claim C5 (amended): on every text without three consecutive [{], applying
    the rewrite twice gives the same text as applying it once; and a [{{]
    already preceded by [$] gets no second [$]: the [$] is copied and followed
    directly by the [{]. *)
Theorem upgrade_v0_markers_idempotent_without_triple_brace :
  (forall s, has_triple_lb s = false ->
     upgrade_v0_markers (upgrade_v0_markers s) = upgrade_v0_markers s) /\
  (forall p q, exists o,
     upgrade_v0_markers (p ++ txt "${{" ++ q) = upgrade_v0_markers p ++ txt "${" ++ o).
Proof.
  split.
  - intros s Hs. rewrite !upgrade_up. apply up_clean.
    apply (up_clean_out (S (List.length s))); [lia | exact Hs].
  - intros p q. rewrite !upgrade_up.
    exists (up false ("{"%char :: q)).
    change (txt "${{" ++ q) with ("$"%char :: "{"%char :: "{"%char :: q).
    rewrite (up_app_nonlb "$" _ eq_refl (S (List.length p)) p false) by lia.
    reflexivity.
Qed.

Lemma upgrade_v0_markers_idempotent_without_triple_brace_witness :
  has_triple_lb (txt "{{ name }}: ${{ version }}") = false /\
  upgrade_v0_markers (upgrade_v0_markers (txt "{{ name }}: ${{ version }}")) =
  upgrade_v0_markers (txt "{{ name }}: ${{ version }}").
Proof.
  split; [reflexivity |].
  apply (proj1 upgrade_v0_markers_idempotent_without_triple_brace). reflexivity.
Defined.

Lemma strongly_sorted_before {B : Type} (R : B -> B -> Prop) :
  forall l1 x l2 y l3, StronglySorted R (l1 ++ x :: l2 ++ y :: l3) -> R x y.
Proof.
  induction l1 as [| a l1 IH]; intros x l2 y l3 H; cbn [app] in H.
  - apply StronglySorted_inv in H as [_ H]. rewrite Forall_forall in H.
    apply H, in_or_app. right. now left.
  - apply StronglySorted_inv in H as [H _]. exact (IH x l2 y l3 H).
Qed.

(** Claim C4: the re-ordering of a mapping under a canonicalization table is
    a permutation of its entries (each entry moved whole with its subtree);
    of two entries, the first is unranked only if the second is, two ranked
    entries come in ascending rank, and the unranked entries keep their
    original relative order. *)
Theorem sort_keys_canonical_order :
  forall (A : Type) (tbl : list (string * Z)) (entries : list (string * A)),
  Permutation (sort_keys tbl entries) entries /\
  (forall l1 x l2 y l3, sort_keys tbl entries = l1 ++ x :: l2 ++ y :: l3 ->
     (rank tbl x = None -> rank tbl y = None) /\
     (forall a b, rank tbl x = Some a -> rank tbl y = Some b -> (a <= b)%Z)) /\
  filter (unranked tbl) (sort_keys tbl entries) = filter (unranked tbl) entries.
Proof.
  intros A tbl entries. split; [| split].
  - apply sort_keys_perm.
  - intros l1 x l2 y l3 E.
    assert (Hs : StronglySorted (entry_le A tbl) (sort_keys tbl entries)).
    { apply Sorted_StronglySorted; [| apply sort_keys_sorted].
      intros e1 e2 e3. unfold entry_le. apply rank_le_trans. }
    rewrite E in Hs. apply strongly_sorted_before in Hs. unfold entry_le in Hs.
    destruct (rank tbl x) as [a |], (rank tbl y) as [b |]; cbn in Hs; split;
      try discriminate; try reflexivity; intros a' b' Ha Hb;
      try discriminate; injection Ha as <-; injection Hb as <-; now apply Z.leb_le.
  - apply sort_keys_unranked.
Qed.

Lemma sort_keys_canonical_order_witness :
  sort_keys TOP_LEVEL_KEY_SORT_ORDER
    [("about", 1); ("zeta", 2); ("package", 3); ("alpha", 4); ("schema_version", 5)]%string =
    [("schema_version", 5); ("package", 3); ("about", 1); ("zeta", 2); ("alpha", 4)]%string /\
  (rank TOP_LEVEL_KEY_SORT_ORDER ("package", 3)%string = None ->
   rank TOP_LEVEL_KEY_SORT_ORDER ("about", 1)%string = None).
Proof.
  split; [reflexivity |].
  apply (proj1 (proj2 (sort_keys_canonical_order nat TOP_LEVEL_KEY_SORT_ORDER
    [("about", 1); ("zeta", 2); ("package", 3); ("alpha", 4); ("schema_version", 5)]%string))
    [("schema_version", 5)]%string ("package", 3)%string [] ("about", 1)%string
    [("zeta", 2); ("alpha", 4)]%string).
  reflexivity.
Defined.

(** Claim C6: the license normaliser maps each key of the misspelling table to
    its corrected identifier and returns every other string unchanged; the
    lookup is case-sensitive. *)
Theorem normalize_license_table_lookup :
  (forall k v, In (k, v) SPDX_COMMON_MISSPELLINGS_TBL -> normalize_license k = v) /\
  (forall s, ~ In s (map fst SPDX_COMMON_MISSPELLINGS_TBL) -> normalize_license s = s) /\
  normalize_license "BSD 3-CLAUSE" = "BSD-3-Clause"%string /\
  normalize_license "MIT" = "MIT"%string /\
  normalize_license "bsd 3-clause" = "bsd 3-clause"%string.
Proof.
  split; [| split; [| split; [| split]]]; try reflexivity.
  - intros k v H. unfold normalize_license.
    rewrite (lookup_in SPDX_COMMON_MISSPELLINGS_TBL eq_refl k v H). reflexivity.
  - intros k H. unfold normalize_license. now rewrite lookup_notin.
Qed.

Lemma normalize_license_table_lookup_witness :
  In ("GPL-2", "GPL-2.0")%string SPDX_COMMON_MISSPELLINGS_TBL /\
  normalize_license "GPL-2" = "GPL-2.0"%string.
Proof.
  split; [cbn; tauto |].
  apply (proj1 normalize_license_table_lookup). cbn; tauto.
Defined.

(** Claim C9: in each of the four canonicalization tables the ranks strictly
    increase in declaration order and the keys are distinct, so two different
    keys of one table never share a rank. *)
Theorem sort_tables_strict_ranks :
  Forall (fun tbl =>
            StronglySorted Z.lt (map snd tbl) /\ distinct_keys tbl = true /\
            (forall k1 k2 r1 r2, In (k1, r1) tbl -> In (k2, r2) tbl -> k1 <> k2 -> r1 <> r2))
    [TOP_LEVEL_KEY_SORT_ORDER; V1_SOURCE_SECTION_KEY_SORT_ORDER;
     V1_BUILD_SECTION_KEY_SORT_ORDER; V1_TEST_SECTION_KEY_SORT_ORDER].
Proof.
  repeat constructor; (apply strictly_increasing_sorted; reflexivity) || idtac;
    intros k1 k2 r1 r2 H1 H2 Hk Hr; subst r2; apply Hk;
    refine (ranks_injective _ _ k1 k2 r1 H1 H2);
    apply strictly_increasing_sorted; reflexivity.
Qed.

Lemma sort_tables_strict_ranks_witness :
  ("build" <> "about")%string /\ (60 <> 110)%Z.
Proof.
  split; [discriminate |].
  pose proof (Forall_inv sort_tables_strict_ranks) as (_ & _ & H).
  apply (H "build"%string "about"%string 60%Z 110%Z); [cbn; tauto | cbn; tauto | discriminate].
Defined.

(** Claim C7 (failing input): with the greedy [.*] of [PRE_PROCESS_ENVIRON],
    the match starting at the blank before [environ[DQ A DQ]] runs to the end
    of the line and so covers the qualified [os.environ[DQ B DQ]] after it;
    the qualified form alone is not matched. *)
Theorem pre_process_environ_match_covers_qualified :
  search PRE_PROCESS_ENVIRON environ_line = Some (2, []) /\
  search PRE_PROCESS_ENVIRON (txt "x: os.environ[" ++ [dq] ++ txt "B" ++ [dq] ++ txt "]") = None.
Proof. split; vm_compute; reflexivity. Qed.

(** Claim C8 (failing input): [MULTILINE] is anchored at the start of the line
    only, so text after the [|] or [>] indicator does not stop a match: a
    quoted one-line value containing [: >] and the line [key: |x] are both
    detected as block scalars. *)
Theorem multiline_matches_inline_text :
  match_at MULTILINE [] (txt "summary: 'Note: > 2 GB of RAM'") <> None /\
  match_at MULTILINE [] (txt "key: |x") <> None /\
  match_at MULTILINE [] (txt "key: value") = None.
Proof. split; [| split]; vm_compute; [discriminate | discriminate | reflexivity]. Qed.

(** Claim C1 (counterexample): a document changed before the call by a
    [set] that left its tree as it was renders back to its text, so its
    [diff()] is empty, but its [is_modified()] is true; after [render_to_v1]
    it is still true, so [is_modified()] is not false for every input
    afterwards. *)
Lemma render_to_v1_touched_input_stays_modified :
  exists h' out,
    render_to_v1 render_scalar [replace_step] touched_heap 0 = Some (h', out) /\
    is_modified touched_heap 0 = Some true /\
    diff render_scalar (fun old _ => old) touched_heap 0 = Some EmptyString /\
    is_modified h' 0 = Some true /\
    diff render_scalar (fun old _ => old) h' 0 = Some EmptyString.
Proof.
  do 2 eexists. split; [reflexivity |].
  repeat split; vm_compute; reflexivity.
Qed.

(** Claim C1 (amended): [render_to_v1] works on a fresh copy of the input and
    leaves every document it was given as it was, whatever the steps do and
    whatever the outcome: [is_modified()] and [diff()] of the input return
    afterwards what they returned before (so an unmodified input stays
    unmodified and an empty diff stays empty); only the copy is added. *)
Theorem render_to_v1_leaves_input :
  forall render line_delta steps h d,
  match render_to_v1 render steps h d with
  | Some (h', _) =>
      List.length h' = S (List.length h) /\
      forall i, i < List.length h ->
        is_modified h' i = is_modified h i /\
        diff render line_delta h' i = diff render line_delta h i
  | None => nth_error h d = None
  end.
Proof.
  intros render line_delta steps h d.
  destruct (render_to_v1 render steps h d) as [[h' out] |] eqn:E.
  - split.
    + revert E. unfold render_to_v1, load.
      destruct (nth_error h d) as [src |]; [| discriminate].
      destruct (fold_left _ steps _) as [h2 msgs] eqn:F.
      intros H. injection H as <- _.
      apply run_steps_frame in F as [Fl _].
      rewrite Fl, length_app. cbn. lia.
    + intros i Hi. unfold is_modified, diff.
      rewrite (render_to_v1_frame render steps h d h' out E i Hi).
      split; reflexivity.
  - revert E. unfold render_to_v1.
    destruct (nth_error h d) as [src |]; [| reflexivity].
    destruct (load h _ _) as [h1 w].
    destruct (fold_left _ steps _) as [h2 msgs]. discriminate.
Qed.

End Claims.

(** * Further properties of the code *)

Module Extras.
Import Re Regex ReSpec Upgrade PatternFacts Tables TableFacts ExitCodes.

(** [DETECT_TRAILING_COMMENT.search(s)] finds something exactly when some [#]
    directly follows a whitespace character.  The match is the whole run of
    whitespace before the first such [#]: it starts after a non-whitespace
    character (or at the start) and ends with that [#]. *)
Theorem detect_trailing_comment_search (s : list ascii) :
  (search DETECT_TRAILING_COMMENT s = None <->
     ~ exists u c v, s = u ++ c :: "#"%char :: v /\ is_space c = true) /\
  (forall i rest, search DETECT_TRAILING_COMMENT s = Some (i, rest) ->
     exists p w, s = p ++ w ++ "#"%char :: rest /\ List.length p = i /\ w <> [] /\
       forallb is_space w = true /\
       (forall p' c, p = p' ++ [c] -> is_space c = false) /\
       (forall u c v, s = u ++ c :: "#"%char :: v -> is_space c = true ->
          List.length p + List.length w <= S (List.length u))).
Proof.
  split.
  - unfold search. rewrite search_go_none. split.
    + intros H (u & c & v & Hs & Hc).
      apply (match_at_DTC_exists (rev u ++ []) [c] v); [discriminate | cbn; now rewrite Hc |].
      apply H. exact Hs.
    + intros H p s1 Hs. destruct (match_at _ _ s1) as [[b' rest] |] eqn:E; [exfalso | reflexivity].
      apply match_at_DTC in E as (w & -> & Hw & Hsp).
      destruct (exists_last Hw) as (w' & c & ->).
      apply H. exists (p ++ w'), c, rest. split.
      * rewrite Hs, <- !app_assoc. reflexivity.
      * rewrite forallb_app in Hsp. apply andb_true_iff in Hsp as [_ Hc].
        cbn in Hc. now rewrite andb_true_r in Hc.
  - intros i rest H. unfold search in H.
    apply search_go_some in H as (p & s1 & b' & -> & -> & Hm & Hearly).
    apply match_at_DTC in Hm as (w & -> & Hw & Hsp).
    exists p, w. split; [reflexivity |]. split; [reflexivity |].
    split; [exact Hw |]. split; [exact Hsp |]. split.
    + intros p' c ->. destruct (is_space c) eqn:Ec; [exfalso | reflexivity].
      apply (match_at_DTC_exists (rev p' ++ []) (c :: w) rest); [discriminate | cbn; now rewrite Ec, Hsp |].
      apply Hearly; [now rewrite <- app_assoc | rewrite length_app; cbn; lia].
    + intros u c v Hs Hc.
      destruct (Nat.lt_ge_cases (List.length u) (List.length p)) as [Hlt | Hge].
      * exfalso. apply (match_at_DTC_exists (rev u ++ []) [c] v); [discriminate | cbn; now rewrite Hc |].
        apply Hearly; [exact Hs | exact Hlt].
      * destruct (Nat.le_gt_cases (List.length p + List.length w) (S (List.length u))) as [Hle | Hgt];
          [exact Hle | exfalso].
        pose proof (nth_error_after u v c "#"%char) as H1. rewrite <- Hs in H1.
        rewrite nth_error_middle in H1 by lia.
        apply nth_error_In in H1. rewrite forallb_forall in Hsp.
        specialize (Hsp _ H1). discriminate Hsp.
Qed.

Lemma detect_trailing_comment_search_witness :
  search DETECT_TRAILING_COMMENT (txt "url: x  # [win]") = Some (6, txt " [win]") /\
  exists p w, txt "url: x  # [win]" = p ++ w ++ "#"%char :: txt " [win]" /\ List.length p = 6.
Proof.
  split; [vm_compute; reflexivity |].
  destruct (proj2 (detect_trailing_comment_search (txt "url: x  # [win]")) 6 (txt " [win]"))
    as (p & w & H1 & H2 & _); [vm_compute; reflexivity |].
  exists p, w. split; [exact H1 | exact H2].
Defined.

(** On a line without newline, [SELECTOR.search(line)] finds something exactly
    when a [[] is followed later by a []]; the match runs from the first [[]
    of the line to its last []] (greedy), whatever lies between them. *)
Theorem selector_search_first_to_last (s : list ascii) (Hs : ~ In nl s) :
  (search SELECTOR s = None <-> ~ exists p u v, s = p ++ "["%char :: u ++ "]"%char :: v) /\
  (forall i rest, search SELECTOR s = Some (i, rest) ->
     exists p u, s = p ++ "["%char :: u ++ "]"%char :: rest /\ List.length p = i /\
       ~ In "["%char p /\ ~ In "]"%char rest).
Proof.
  split.
  - unfold search. rewrite search_go_none. split.
    + intros H (p & u & v & Es).
      apply (match_at_SELECTOR_exists (rev p ++ []) u v).
      * intros Hu. apply Hs. rewrite Es. apply in_or_app. right. right. apply in_or_app. now left.
      * now apply H.
    + intros H p s1 Es. destruct (match_at _ _ s1) as [[b' rest] |] eqn:E; [exfalso | reflexivity].
      apply match_at_SELECTOR in E as (u & -> & _ & _).
      apply H. exists p, u, rest. exact Es.
  - intros i rest H. unfold search in H.
    apply search_go_some in H as (p & s1 & b' & -> & -> & Hm & Hearly).
    apply match_at_SELECTOR in Hm as (u & -> & Hu & Hmax).
    exists p, u. split; [reflexivity |]. split; [reflexivity |]. split.
    + intros Hin. apply in_split in Hin as (p1 & p2 & ->).
      apply (match_at_SELECTOR_exists (rev p1 ++ []) (p2 ++ "["%char :: u) rest).
      * intros Hn. apply in_app_iff in Hn as [Hn | [Hn | Hn]].
        -- apply Hs. apply in_or_app. left. apply in_or_app. right. now right.
        -- discriminate Hn.
        -- contradiction.
      * apply Hearly.
        -- rewrite <- !app_assoc. cbn [app]. rewrite <- ?app_assoc. reflexivity.
        -- rewrite length_app. cbn. lia.
    + intros Hin. apply in_split in Hin as (v & w & ->).
      apply Hs. apply in_or_app. right. right. apply in_or_app. right. right.
      apply in_or_app. left. exact (Hmax v w eq_refl).
Qed.

Lemma selector_search_first_to_last_witness :
  ~ In nl (txt "- gcc  # [linux and not aarch64] or [osx]") /\
  exists p u, txt "- gcc  # [linux and not aarch64] or [osx]" =
              p ++ "["%char :: u ++ "]"%char :: [] /\ List.length p = 9.
Proof.
  assert (Hs : ~ In nl (txt "- gcc  # [linux and not aarch64] or [osx]"))
    by (apply forallb_not_nl; vm_compute; reflexivity).
  split; [exact Hs |].
  destruct (proj2 (selector_search_first_to_last _ Hs) 9 [])
    as (p & u & H1 & H2 & _); [vm_compute; reflexivity |].
  exists p, u. split; [exact H1 | exact H2].
Defined.

(** [JINJA_FUNCTION_LOWER] matches at a position exactly when the text there is
    [|], then only whitespace, then [lower]; the match ends right after
    [lower], so [| lowercase] is matched too, leaving [case]. *)
Theorem jinja_function_lower_match (b s s' : list ascii) :
  (exists b', match_at JINJA_FUNCTION_LOWER b s = Some (b', s')) <->
  exists w, s = "|"%char :: w ++ txt "lower" ++ s' /\ forallb is_space w = true.
Proof. apply match_at_JFL. Qed.

(** Every match of [JINJA_SUB] is [{{], a text without any brace, and [}}]: a
    match ends at the first [}}] and never spans two substitutions. *)
Theorem jinja_sub_match_shape (b s b' s' : list ascii) :
  match_at JINJA_SUB b s = Some (b', s') ->
  exists inner, s = txt "{{" ++ inner ++ txt "}}" ++ s' /\ ~ In "{"%char inner /\ ~ In "}"%char inner.
Proof.
  intros H. apply match_at_JINJA_SUB in H as (inner & -> & Hi).
  exists inner. split; [reflexivity |]. unfold not_brace in Hi. split.
  - apply forallb_neq. rewrite forallb_forall in Hi |- *. intros c Hc.
    specialize (Hi c Hc). now apply andb_true_iff in Hi as [Hi _].
  - apply forallb_neq. rewrite forallb_forall in Hi |- *. intros c Hc.
    specialize (Hi c Hc). now apply andb_true_iff in Hi as [_ Hi].
Qed.

Lemma jinja_sub_match_shape_witness :
  exists inner, txt "{{ name }} {{ version }}" = txt "{{" ++ inner ++ txt "}}" ++ txt " {{ version }}" /\
    ~ In "{"%char inner /\ ~ In "}"%char inner.
Proof.
  apply (jinja_sub_match_shape [] (txt "{{ name }} {{ version }}") (rev (txt "{{ name }}"))
           (txt " {{ version }}")).
  vm_compute. reflexivity.
Defined.

(** Every match of [JINJA_LINE] is a single line: text without a newline,
    followed by the newline that ends it. *)
Theorem jinja_line_match_one_line (b s b' s' : list ascii) :
  match_at JINJA_LINE b s = Some (b', s') ->
  exists u, s = u ++ nl :: s' /\ ~ In nl u.
Proof. apply match_at_JINJA_LINE. Qed.

Lemma jinja_line_match_one_line_witness :
  exists u, txt "{% if win %}" ++ [nl] ++ txt "{% endif %}" ++ [nl] =
            u ++ nl :: txt "{% endif %}" ++ [nl] /\ ~ In nl u.
Proof.
  apply (jinja_line_match_one_line [] _ (rev (txt "{% if win %}" ++ [nl]))).
  vm_compute. reflexivity.
Defined.

(** Every match of [PRE_PROCESS_ENVIRON] starts with at least one whitespace
    character, directly followed by [environ[]. *)
Theorem pre_process_environ_needs_whitespace (b s b' s' : list ascii) :
  match_at PRE_PROCESS_ENVIRON b s = Some (b', s') ->
  exists w rest, s = w ++ txt "environ[" ++ rest /\ w <> [] /\ forallb is_space w = true.
Proof. apply match_at_PRE_PROCESS_ENVIRON. Qed.

Lemma pre_process_environ_needs_whitespace_witness :
  exists w rest, txt " environ['X']" = w ++ txt "environ[" ++ rest /\ w <> [] /\
                 forallb is_space w = true.
Proof.
  apply (pre_process_environ_needs_whitespace [] (txt " environ['X']") (rev (txt " environ['X']")) []).
  vm_compute. reflexivity.
Defined.

(** A correction of [SPDX_COMMON_MISSPELLINGS_TBL] is never a key of the table
    itself, and differs from its key; every key is free of lower-case letters,
    as the table's comment says ([MISTAKE] in capitals). *)
Theorem spdx_corrections_are_final (k v : string) :
  lookup k SPDX_COMMON_MISSPELLINGS_TBL = Some v ->
  lookup v SPDX_COMMON_MISSPELLINGS_TBL = None /\ v <> k /\
  forallb (fun c => negb (is_lower c)) (list_ascii_of_string k) = true.
Proof.
  intros H. apply lookup_some_in in H.
  pose proof spdx_rows_ok as Hok. rewrite forallb_forall in Hok.
  specialize (Hok _ H). unfold spdx_row_ok in Hok.
  apply andb_true_iff in Hok as [Hok Hk]. apply andb_true_iff in Hok as [Hl Hv].
  split; [| split; [| exact Hk]].
  - destruct (lookup v _); [discriminate | reflexivity].
  - intros ->. now rewrite String.eqb_refl in Hv.
Qed.

Lemma spdx_corrections_are_final_witness :
  lookup "GPL-2"%string SPDX_COMMON_MISSPELLINGS_TBL = Some "GPL-2.0"%string /\
  lookup "GPL-2.0"%string SPDX_COMMON_MISSPELLINGS_TBL = None.
Proof.
  assert (H : lookup "GPL-2"%string SPDX_COMMON_MISSPELLINGS_TBL = Some "GPL-2.0"%string)
    by (vm_compute; reflexivity).
  split; [exact H | exact (proj1 (spdx_corrections_are_final _ _ H))].
Defined.

(** [ExitCode(int(e)) == e] for every member, [ExitCode(n)] only returns a
    member whose value is [n] (so no two members share a value), and every
    value is a valid process exit status (0 to 255). *)
Theorem exit_code_round_trip :
  (forall e, of_value (value e) = Some e) /\
  (forall n e, of_value n = Some e -> value e = n) /\
  (forall e, (0 <= value e <= 255)%Z).
Proof.
  split; [| split].
  - intros []; reflexivity.
  - intros n e H. unfold of_value in H. apply find_some in H as [_ H]. now apply Z.eqb_eq.
  - intros []; cbn; lia.
Qed.

(** [JINJA_REPLACE_V0_STARTING_MARKER] matches at a position exactly when the
    next two characters are [{{] and the character before is not [$]; the match
    is those two braces. *)
Theorem v0_marker_match (b s b' s' : list ascii) :
  match_at JINJA_REPLACE_V0_STARTING_MARKER b s = Some (b', s') <->
  s = "{"%char :: "{"%char :: s' /\ b' = "{"%char :: "{"%char :: b /\
  ~ exists b0, b = "$"%char :: b0.
Proof.
  rewrite match_at_marker. unfold dollar_before, is_dollar, is_lb.
  split.
  - destruct s as [| a [| c t]]; try discriminate.
    destruct (Ascii.eqb "{" a) eqn:Ea, (Ascii.eqb "{" c) eqn:Ec; cbn [andb]; try discriminate.
    apply Ascii.eqb_eq in Ea, Ec. subst a c.
    destruct b as [| d b0] eqn:Eb.
    + intros H. injection H as <- <-. split; [reflexivity |]. split; [reflexivity |].
      intros (b0 & Hb0). discriminate Hb0.
    + destruct (Ascii.eqb "$" d) eqn:Ed; [discriminate |].
      intros H. injection H as <- <-. split; [reflexivity |]. split; [reflexivity |].
      intros (b1 & Hb1). injection Hb1 as -> _. discriminate Ed.
  - intros (-> & -> & Hb). rewrite Ascii.eqb_refl. cbn [andb].
    destruct b as [| d b0]; [reflexivity |].
    destruct (Ascii.eqb "$" d) eqn:Ed; [| reflexivity].
    exfalso. apply Ascii.eqb_eq in Ed. subst d. apply Hb. now exists b0.
Qed.

Lemma v0_marker_match_witness :
  match_at JINJA_REPLACE_V0_STARTING_MARKER (rev (txt "a: ")) (txt "{{ x }}") =
    Some (rev (txt "a: {{"), txt " x }}") /\
  ~ exists b0, rev (txt "a: ") = "$"%char :: b0.
Proof.
  split; [vm_compute; reflexivity |].
  exact (proj2 (proj2 (proj1 (v0_marker_match (rev (txt "a: ")) (txt "{{ x }}")
                                (rev (txt "a: {{")) (txt " x }}"))
                       ltac:(vm_compute; reflexivity)))).
Defined.

(** [MULTILINE] starts with [^] and is compiled without [re.MULTILINE]:
    [MULTILINE.search(text)] can only find a match that starts at position 0,
    the start of the text; a match that would start later in the text (for
    instance on a later line) is never found. *)
Theorem multiline_search_only_at_start (s : list ascii) (i : nat) (rest : list ascii) :
  search MULTILINE s = Some (i, rest) -> i = 0.
Proof.
  unfold search. intros H. apply search_go_some in H as (p & s1 & b' & _ & -> & Hm & _).
  destruct p as [| c p]; [reflexivity | exfalso].
  revert Hm. unfold match_at, MULTILINE. cbn [seq]. rewrite m_cat.
  cbn [rev]. destruct (rev p ++ [c]) eqn:E; [| discriminate].
  apply (f_equal (@List.length ascii)) in E. rewrite length_app in E. cbn in E. lia.
Qed.

Lemma multiline_search_only_at_start_witness :
  search MULTILINE (txt "a: |") = Some (0, []) /\ 0 = 0 /\
  search MULTILINE (txt "x" ++ [nl] ++ txt "a: |") = None.
Proof.
  split; [vm_compute; reflexivity |]. split; [| vm_compute; reflexivity].
  exact (multiline_search_only_at_start (txt "a: |") 0 [] ltac:(vm_compute; reflexivity)).
Defined.

End Extras.
